(** * libcppa: textual serialization ([src/string_serialization.cpp])

    A shallow embedding of the anonymous-namespace classes
    [string_serializer] and [string_deserializer] and the properties the
    specification states about them.

    Conventions.
    - A [std::string] is a [list ascii]; iterators into [m_str] are offsets
      from [m_str.begin()], so [m_str.end()] is [length m_str].
    - [size_t] is a [Z] reduced modulo [2^64]; [int] is a [Z] reduced to the
      two's complement range of 32 bits.
    - A C++ exception is the [Throw] outcome of the reader monad; it carries
      the state of the object at the point of the [throw]. *)

From Stdlib Require Import List Ascii ZArith Lia Bool Arith.
From Stdlib Require Strings.String.
Import ListNotations.
Import String.StringSyntax.
Delimit Scope string_scope with string.

Set Implicit Arguments.

(** ** Characters and text *)

Definition lit (s : String.string) : list ascii := String.list_ascii_of_string s.

Declare Scope text_scope.
Delimit Scope text_scope with text.
Notation "# s" := (lit s%string) (at level 1, format "# s") : text_scope.
Local Open Scope text_scope.

Definition dquote : ascii := "034".
Definition backslash : ascii := "092".
(** [charT()], the terminator a [std::string] keeps at [data()[size()]]. *)
Definition NUL : ascii := "000".

(** [std::string(first, last)] for offsets [first], [last] into [s]. *)
Definition range (s : list ascii) (first last : nat) : list ascii :=
  firstn (last - first) (skipn first s).

(** [std::find_if(first, last, p) - first] over the characters [l] of
    [[first, last)]: the number of leading characters that fail [p]; it is
    [length l] when the algorithm returns [last]. *)
Fixpoint find_if (p : ascii -> bool) (l : list ascii) : nat :=
  match l with
  | [] => 0
  | c :: l' => if p c then 0 else S (find_if p l')
  end.

(** [std::find(first, last, c) - first]. *)
Definition find (c : ascii) (l : list ascii) : nat := find_if (Ascii.eqb c) l.

(** [std::count(first, last, c)]. *)
Definition count (c : ascii) (l : list ascii) : nat :=
  length (filter (Ascii.eqb c) l).

(** ** Primitive values *)

(** Modelled from the spec: [cppa/primitive_variant.hpp] is not among the
    sources.  The spec (section 3) gives the tags: booleans, fixed-width
    signed/unsigned integers, floating point, and three string encodings.
    The source names [pt_u8string] and, through the overloads of the two
    visitors, [std::string], [std::u16string] and [std::u32string]; every
    other alternative goes through the visitors' [template<typename T>]
    overload and is collected under [pt_arithmetic]. *)
Inductive arithmetic_type : Type :=
| at_bool
| at_int8 | at_int16 | at_int32 | at_int64
| at_uint8 | at_uint16 | at_uint32 | at_uint64
| at_float | at_double.

Inductive primitive_type : Type :=
| pt_arithmetic (a : arithmetic_type)
| pt_u8string
| pt_u16string
| pt_u32string.

(** Modelled from the spec: a tagged union whose tag determines the payload.
    An arithmetic payload is kept as its object representation (the integer
    value, or the bit pattern of a floating point number); UTF-16 and UTF-32
    strings are lists of code units. *)
Inductive primitive_variant : Type :=
| pv_arithmetic (a : arithmetic_type) (raw : Z)
| pv_u8string (s : list ascii)
| pv_u16string (s : list Z)
| pv_u32string (s : list Z).

(** Modelled from the spec: the constructor [primitive_variant(ptype)] of the
    missing header, which yields the value-initialised alternative of the
    tag: zero, or the empty string. *)
Definition primitive_variant_of (t : primitive_type) : primitive_variant :=
  match t with
  | pt_arithmetic a => pv_arithmetic a 0
  | pt_u8string => pv_u8string []
  | pt_u16string => pv_u16string []
  | pt_u32string => pv_u32string []
  end.

Definition is_u8string (t : primitive_type) : bool :=
  match t with pt_u8string => true | _ => false end.

(** ** The writer *)

Module string_serializer.

Record t : Type := mk {
  out : list ascii;              (* the characters sent to [std::ostream& out] *)
  m_open_objects : Z;
  m_after_value : bool;
  m_obj_just_opened : bool
}.

(** [string_serializer(std::ostream& mout)] over an empty stream. *)
Definition init : t :=
  {| out := []; m_open_objects := 0;
     m_after_value := false; m_obj_just_opened := false |}.

Definition put (s : list ascii) (w : t) : t :=
  {| out := out w ++ s; m_open_objects := m_open_objects w;
     m_after_value := m_after_value w;
     m_obj_just_opened := m_obj_just_opened w |}.

Definition set_after_value (b : bool) (w : t) : t :=
  {| out := out w; m_open_objects := m_open_objects w;
     m_after_value := b; m_obj_just_opened := m_obj_just_opened w |}.

Definition set_obj_just_opened (b : bool) (w : t) : t :=
  {| out := out w; m_open_objects := m_open_objects w;
     m_after_value := m_after_value w; m_obj_just_opened := b |}.

(** [++m_open_objects] on an [int]. *)
Definition incr_int (z : Z) : Z := (z + 1 + 2 ^ 31) mod 2 ^ 32 - 2 ^ 31.

Definition incr_open_objects (w : t) : t :=
  {| out := out w; m_open_objects := incr_int (m_open_objects w);
     m_after_value := m_after_value w;
     m_obj_just_opened := m_obj_just_opened w |}.

Section Writer.

(** The characters [out << value] produces for an arithmetic alternative
    (the formatting of the standard library's [operator<<]). *)
Variable ostream_insert : arithmetic_type -> Z -> list ascii.

(** [pt_writer::operator()(const std::string&)]. *)
Definition write_string (str : list ascii) : list ascii :=
  [dquote]
  ++ flat_map (fun c => if Ascii.eqb c dquote then [backslash; dquote] else [c]) str
  ++ [dquote].

Definition pt_writer (value : primitive_variant) : list ascii :=
  match value with
  | pv_arithmetic a raw => ostream_insert a raw
  | pv_u8string str => write_string str
  | pv_u16string _ => []
  | pv_u32string _ => []
  end.

Definition clear (w : t) : t :=
  if m_after_value w then set_after_value false (put #", " w)
  else if m_obj_just_opened w then set_obj_just_opened false (put #" ( " w)
  else w.

Definition begin_object (type_name : list ascii) (w : t) : t :=
  set_obj_just_opened true (put type_name (incr_open_objects (clear w))).

Definition end_object (w : t) : t :=
  set_after_value true
    (if m_obj_just_opened w then set_obj_just_opened false w
     else put (if m_after_value w then #" )" else #")") w).

Definition begin_sequence (size : Z) (w : t) : t := put #"{ " (clear w).

Definition end_sequence (w : t) : t :=
  put (if m_after_value w then #" }" else #"}") w.

Definition write_value (value : primitive_variant) (w : t) : t :=
  set_after_value true (put (pt_writer value) (clear w)).

(** The [for] loop of [write_tuple], and of a caller that writes the
    elements of a sequence one by one. *)
Definition write_values (values : list primitive_variant) (w : t) : t :=
  fold_left (fun w v => write_value v w) values w.

Definition write_tuple (values : list primitive_variant) (w : t) : t :=
  let w := put #" {" (clear w) in
  let w := write_values values w in
  put (if m_after_value w then #" }" else #"}") w.

End Writer.

End string_serializer.

(** ** The reader *)

Module string_deserializer.

(** The private members of the class, and [derefs]: the offsets at which the
    iterator [m_pos] has been dereferenced ([*m_pos] in the source), most
    recent first.  [derefs] is instrumentation; no operation reads it.
    The standard algorithms ([std::find_if], [std::find], [std::count] and
    the range constructor of [std::string]) work on iterator ranges that end
    at [m_str.end()] and are modelled on the characters of the range. *)
Record t : Type := mk {
  m_str : list ascii;
  m_pos : nat;
  m_obj_count : Z;
  m_obj_had_left_parenthesis : list bool;   (* [std::stack<bool>], top first *)
  derefs : list nat
}.

(** [string_deserializer(const std::string& str)]. *)
Definition init (str : list ascii) : t :=
  {| m_str := str; m_pos := 0; m_obj_count := 0;
     m_obj_had_left_parenthesis := []; derefs := [] |}.

Definition set_pos (p : nat) (r : t) : t :=
  {| m_str := m_str r; m_pos := p; m_obj_count := m_obj_count r;
     m_obj_had_left_parenthesis := m_obj_had_left_parenthesis r;
     derefs := derefs r |}.

Definition set_obj_count (n : Z) (r : t) : t :=
  {| m_str := m_str r; m_pos := m_pos r; m_obj_count := n;
     m_obj_had_left_parenthesis := m_obj_had_left_parenthesis r;
     derefs := derefs r |}.

Definition set_stack (st : list bool) (r : t) : t :=
  {| m_str := m_str r; m_pos := m_pos r; m_obj_count := m_obj_count r;
     m_obj_had_left_parenthesis := st; derefs := derefs r |}.

Definition log_deref (r : t) : t :=
  {| m_str := m_str r; m_pos := m_pos r; m_obj_count := m_obj_count r;
     m_obj_had_left_parenthesis := m_obj_had_left_parenthesis r;
     derefs := m_pos r :: derefs r |}.

(** The characters of [[m_pos, m_str.end())]. *)
Definition remaining (r : t) : list ascii := skipn (m_pos r) (m_str r).

(** Arithmetic of [size_t]. *)
Definition size_max : Z := 2 ^ 64.
Definition incr_size (n : Z) : Z := (n + 1) mod size_max.
Definition decr_size (n : Z) : Z := (n - 1) mod size_max.

(** *** Exceptions and the reader monad *)

Inductive exn : Type :=
| logic_error (what : list ascii).

Inductive outcome (A : Type) : Type :=
| Ok (a : A) (r : t)
| Throw (e : exn) (r : t).
Arguments Throw {A} e r.

Definition M (A : Type) : Type := t -> outcome A.

Definition ret {A} (a : A) : M A := fun r => Ok a r.

Definition bind {A B} (m : M A) (k : A -> M B) : M B :=
  fun r => match m r with
           | Ok a r' => k a r'
           | Throw e r' => Throw e r'
           end.

Definition throw {A} (e : exn) : M A := fun r => Throw e r.
Definition gets {A} (f : t -> A) : M A := fun r => Ok (f r) r.
Definition modify (f : t -> t) : M unit := fun r => Ok tt (f r).

Notation "x <- m ;; k" := (bind m (fun x => k))
  (at level 61, m at next level, right associativity).
Notation "m ;; k" := (bind m (fun _ => k))
  (at level 61, right associativity).

(** The state an outcome ends in. *)
Definition final {A} (o : outcome A) : t :=
  match o with Ok _ r => r | Throw _ r => r end.

(** [*m_pos].  Inside the string this is the character under the cursor; at
    [m_str.end()] it is the terminator [charT()] that [std::string] stores
    behind its last character (the loops of the class stop on it).  No
    operation of the class dereferences behind that. *)
Definition deref : M ascii :=
  fun r => Ok (nth (m_pos r) (m_str r) NUL) (log_deref r).

(** [++m_pos] and [m_pos += n]. *)
Definition advance (n : nat) : M unit := modify (fun r => set_pos (m_pos r + n) r).

Definition is_space_or_comma (c : ascii) : bool :=
  Ascii.eqb c " " || Ascii.eqb c ",".

(** The [while] loop of [skip_space_and_comma]: as long as [*m_pos] is a
    space or a comma, [++m_pos].  One entry of [derefs] per evaluation of
    the loop condition.  The loop runs at most once per
    character left, plus the evaluation that ends it. *)
Fixpoint skip_loop (fuel : nat) : M unit :=
  match fuel with
  | 0 => ret tt
  | S fuel' =>
      c <- deref ;;
      if is_space_or_comma c then advance 1 ;; skip_loop fuel' else ret tt
  end.

Definition skip_space_and_comma : M unit :=
  fun r => skip_loop (S (length (m_str r) - m_pos r)) r.

Definition throw_malformed {A} (error_msg : list ascii) : M A :=
  throw (logic_error (#"malformed string: " ++ error_msg)).

Definition consume (c : ascii) : M unit :=
  skip_space_and_comma ;;
  x <- deref ;;
  if negb (Ascii.eqb x c) then
    y <- deref ;;
    throw_malformed (#"expected '" ++ [c] ++ #"' found '" ++ [y] ++ #"'")
  else advance 1.

Definition try_consume (c : ascii) : M bool :=
  skip_space_and_comma ;;
  x <- deref ;;
  if Ascii.eqb x c then advance 1 ;; ret true else ret false.

Definition is_delimiter (c : ascii) : bool :=
  Ascii.eqb c "(" || Ascii.eqb c ")" || Ascii.eqb c "{" || Ascii.eqb c "}"
  || Ascii.eqb c " " || Ascii.eqb c ",".

(** The offset [next_delimiter()] returns. *)
Definition next_delimiter : M nat :=
  gets (fun r => m_pos r + find_if is_delimiter (remaining r)).

Definition integrity_check : M unit :=
  st <- gets m_obj_had_left_parenthesis ;;
  match st with
  | [] => throw_malformed #"missing begin_object()"
  | false :: _ =>
      throw_malformed #"expected left parenthesis after begin_object call or void value"
  | true :: _ => ret tt
  end.

Definition seek_object : M (list ascii) :=
  skip_space_and_comma ;;
  substr_end <- next_delimiter ;;
  pos <- gets m_pos ;;
  if Nat.eqb pos substr_end then throw_malformed #"could not seek object type name"
  else
    result <- gets (fun r => range (m_str r) pos substr_end) ;;
    modify (set_pos substr_end) ;;
    ret result.

Definition peek_object : M (list ascii) :=
  result <- seek_object ;;
  (* restore position in stream *)
  modify (fun r => set_pos (m_pos r - length result) r) ;;
  ret result.

Definition begin_object (type_name : list ascii) : M unit :=
  modify (fun r => set_obj_count (incr_size (m_obj_count r)) r) ;;
  skip_space_and_comma ;;
  b <- try_consume "(" ;;
  modify (fun r => set_stack (b :: m_obj_had_left_parenthesis r) r).

Definition end_object : M unit :=
  st <- gets m_obj_had_left_parenthesis ;;
  match st with
  | [] => throw_malformed #"missing begin_object()"
  | top :: st' =>
      (if top then consume ")" else ret tt) ;;
      modify (set_stack st')
  end ;;
  modify (fun r => set_obj_count (decr_size (m_obj_count r)) r) ;;
  n <- gets m_obj_count ;;
  if Z.eqb n 0 then
    skip_space_and_comma ;;
    pos <- gets m_pos ;;
    len <- gets (fun r => length (m_str r)) ;;
    if negb (Nat.eqb pos len) then throw_malformed #"expected end of of string"
    else ret tt
  else ret tt.

Definition begin_sequence : M Z :=
  integrity_check ;;
  consume "{" ;;
  rest <- gets remaining ;;
  let list_end := find "}" rest in
  ret (Z.of_nat (count "," (firstn list_end rest)) + 1)%Z.

Definition end_sequence : M unit := consume "}".

(** The lambda [find_if_cond] of [read_value]. *)
Definition find_if_cond (c : ascii) : bool :=
  Ascii.eqb c ")" || Ascii.eqb c "}" || Ascii.eqb c " " || Ascii.eqb c ",".

(** [std::find_if(first, last, find_if_str_cond) - first]: the lambda keeps
    the previous character in the captured [last_char]. *)
Fixpoint find_if_str (last_char : ascii) (l : list ascii) : nat :=
  match l with
  | [] => 0
  | c :: l' =>
      if Ascii.eqb c dquote && negb (Ascii.eqb last_char backslash) then 0
      else S (find_if_str c l')
  end.

(** [std::find_if(first, last, cond) - first] for the lambda [cond] of the
    replacement loop; [last_char] is only assigned when [cond] answers no. *)
Fixpoint find_if_escaped (last_char : ascii) (l : list ascii) : nat :=
  match l with
  | [] => 0
  | c :: l' =>
      if Ascii.eqb c dquote && Ascii.eqb last_char backslash then 0
      else S (find_if_escaped c l')
  end.

(** The [for] loop that replaces backslash-quote by a quote.  [i] and
    [sbegin] coincide whenever the loop condition is evaluated, and a match
    leaves [last_char] at the backslash that enabled it.  In the text
    between two quotes that [read_value] passes, a quote follows a
    backslash, so a match is behind [sbegin] and [--i] stays in the range.
    Every iteration moves [sbegin] forward, so [S (length substr)]
    iterations are enough.  It returns [tmp] and [sbegin]. *)
Fixpoint replace_loop (fuel : nat) (substr : list ascii) (last_char : ascii)
    (sbegin : nat) (tmp : list ascii) : list ascii * nat :=
  match fuel with
  | 0 => (tmp, sbegin)
  | S fuel' =>
      let i := sbegin + find_if_escaped last_char (skipn sbegin substr) in
      if Nat.eqb i (length substr) then (tmp, sbegin)
      else
        let i := i - 1 in
        let tmp := tmp ++ range substr sbegin i ++ [dquote] in
        let i := i + 2 in
        replace_loop fuel' substr backslash i tmp
  end.

Definition unescape (substr : list ascii) : list ascii :=
  let '(tmp, sbegin) := replace_loop (S (length substr)) substr " " 0 [] in
  let tmp :=
    if negb (Nat.eqb sbegin 0) then tmp ++ range substr sbegin (length substr)
    else tmp in
  match tmp with
  | [] => substr
  | _ :: _ => tmp
  end.

Section Reader.

(** The value [std::istringstream s(str); s >> what;] leaves in an arithmetic
    [what] (the parsing of the standard library's [operator>>]). *)
Variable istream_extract : arithmetic_type -> list ascii -> Z -> Z.

(** The visitor [from_string], applied to the variant [what]. *)
Definition from_string (str : list ascii) (what : primitive_variant)
  : primitive_variant :=
  match what with
  | pv_arithmetic a raw => pv_arithmetic a (istream_extract a str raw)
  | pv_u8string _ => pv_u8string str
  | pv_u16string s => pv_u16string s
  | pv_u32string s => pv_u32string s
  end.

Definition read_value (ptype : primitive_type) : M primitive_variant :=
  integrity_check ;;
  skip_space_and_comma ;;
  substr_end <-
    (if is_u8string ptype then
       c <- deref ;;
       if Ascii.eqb c dquote then
         (* skip leading quote *)
         advance 1 ;;
         gets (fun r => m_pos r + find_if_str dquote (remaining r))
       else gets (fun r => m_pos r + find_if find_if_cond (remaining r))
     else gets (fun r => m_pos r + find_if find_if_cond (remaining r))) ;;
  len <- gets (fun r => length (m_str r)) ;;
  if Nat.eqb substr_end len then
    throw (logic_error #"malformed string (unterminated value)")
  else
    substr <- gets (fun r => range (m_str r) (m_pos r) substr_end) ;;
    advance (length substr) ;;
    substr <-
      (if is_u8string ptype then
         (* skip trailing quote *)
         c <- deref ;;
         if negb (Ascii.eqb c dquote) then
           c' <- deref ;;
           throw (logic_error (#"malformed string, expected '" ++ [dquote]
                               ++ #"' found '" ++ [c'] ++ #"'"))
         else advance 1 ;; ret (unescape substr)
       else ret substr) ;;
    ret (from_string substr (primitive_variant_of ptype)).

(** The [for] loop of [read_tuple]; the list it returns is [storage]. *)
Fixpoint read_values (tags : list primitive_type) : M (list primitive_variant) :=
  match tags with
  | [] => ret []
  | tag :: tags' =>
      v <- read_value tag ;;
      vs <- read_values tags' ;;
      ret (v :: vs)
  end.

Definition read_tuple (tags : list primitive_type) : M (list primitive_variant) :=
  integrity_check ;;
  consume "{" ;;
  storage <- read_values tags ;;
  consume "}" ;;
  ret storage.

(** The public member functions, as the requests a caller (a type
    descriptor's [deserialize]) can make, and a run of such requests that
    stops at the first exception. *)
Inductive call : Type :=
| call_seek_object
| call_peek_object
| call_begin_object (type_name : list ascii)
| call_end_object
| call_begin_sequence
| call_end_sequence
| call_read_value (ptype : primitive_type)
| call_read_tuple (tags : list primitive_type).

Definition run (c : call) : M unit :=
  match c with
  | call_seek_object => seek_object ;; ret tt
  | call_peek_object => peek_object ;; ret tt
  | call_begin_object n => begin_object n
  | call_end_object => end_object
  | call_begin_sequence => begin_sequence ;; ret tt
  | call_end_sequence => end_sequence
  | call_read_value ptype => read_value ptype ;; ret tt
  | call_read_tuple tags => read_tuple tags ;; ret tt
  end.

Fixpoint run_all (cs : list call) : M unit :=
  match cs with
  | [] => ret tt
  | c :: cs' => run c ;; run_all cs'
  end.

End Reader.

End string_deserializer.

(** ** The facade: [cppa::from_string] and [cppa::detail::to_string] *)

Section Facade.

(** The values a descriptor builds. *)
Variable object : Type.

(** [uniform_type_info::by_uniform_name(uname)]: the descriptor announced
    under a name, [None] for [nullptr].  A descriptor is given by what its
    [deserialize(&strd)] does with the reader. *)
Variable by_uniform_name :
  list ascii -> option (string_deserializer.M object).

Definition from_string (what : list ascii)
  : string_deserializer.outcome object :=
  string_deserializer.bind string_deserializer.peek_object
    (fun uname =>
       match by_uniform_name uname with
       | None =>
           string_deserializer.throw
             (string_deserializer.logic_error (uname ++ #" is not announced"))
       | Some deserialize => deserialize
       end)
    (string_deserializer.init what).

End Facade.

(** [detail::to_string(what, utype)], for the writer calls [serialize] that
    [utype->serialize(what, &strs)] makes. *)
Definition to_string (serialize : string_serializer.t -> string_serializer.t)
  : list ascii :=
  string_serializer.out (serialize string_serializer.init).

Unset Implicit Arguments.

(** ** Vocabulary of the statements *)

Module W := string_serializer.
Module R := string_deserializer.

(** The character [*m_pos] of a reader state. *)
Definition cur (r : R.t) : ascii := nth (R.m_pos r) (R.m_str r) NUL.

(** The number of spaces and commas some text starts with. *)
Definition leading_separators (l : list ascii) : nat :=
  find_if (fun c => negb (R.is_space_or_comma c)) l.

(** The state [skip_space_and_comma] leaves: the cursor behind the leading
    separators, after one dereference at each of them and one at the
    character that ends the loop. *)
Definition skipped (r : R.t) : R.t :=
  let n := leading_separators (R.remaining r) in
  {| R.m_str := R.m_str r;
     R.m_pos := R.m_pos r + n;
     R.m_obj_count := R.m_obj_count r;
     R.m_obj_had_left_parenthesis := R.m_obj_had_left_parenthesis r;
     R.derefs := rev (seq (R.m_pos r) (S n)) ++ R.derefs r |}.

(** The cursor is an iterator of [m_str]: it is in [[begin(), end()]]. *)
Definition in_bounds (r : R.t) : Prop := R.m_pos r <= length (R.m_str r).

(** The writer state with an empty stream, and with text put in front. *)
Definition flags (w : W.t) : W.t :=
  {| W.out := []; W.m_open_objects := W.m_open_objects w;
     W.m_after_value := W.m_after_value w;
     W.m_obj_just_opened := W.m_obj_just_opened w |}.

Definition prepend (s : list ascii) (w : W.t) : W.t :=
  {| W.out := s ++ W.out w; W.m_open_objects := W.m_open_objects w;
     W.m_after_value := W.m_after_value w;
     W.m_obj_just_opened := W.m_obj_just_opened w |}.

(** A stream extraction that leaves every arithmetic value as it was, and a
    stream insertion that prints nothing: instances for concrete runs that
    involve no arithmetic value. *)
Definition extract_nothing : arithmetic_type -> list ascii -> Z -> Z :=
  fun _ _ raw => raw.
Definition insert_nothing : arithmetic_type -> Z -> list ascii :=
  fun _ _ => [].

(** The element count of a sequence as the specification words it:
    "scanning ahead to the matching [}] and counting commas + 1".
    [matching_brace depth l] is the offset in [l] of the [}] that closes the
    sequence whose [{] has just been consumed, [depth] sequences having been
    opened in between; it is [length l] when there is none. *)
Fixpoint matching_brace (depth : nat) (l : list ascii) : nat :=
  match l with
  | [] => 0
  | c :: l' =>
      if Ascii.eqb c "}" then
        match depth with
        | 0 => 0
        | S depth' => S (matching_brace depth' l')
        end
      else if Ascii.eqb c "{" then S (matching_brace (S depth) l')
      else S (matching_brace depth l')
  end.

Definition spec_sequence_count (rest : list ascii) : Z :=
  (Z.of_nat (count "," (firstn (matching_brace 0 rest) rest)) + 1)%Z.

(** The count the code computes: commas before the next [}] (or before the
    end of the input when there is no [}]), plus one. *)
Definition code_sequence_count (rest : list ascii) : Z :=
  (Z.of_nat (count "," (firstn (find "}" rest) rest)) + 1)%Z.

(** The reader over [text], inside an object whose [(] has been read and
    with the cursor at [pos]: the state in which a descriptor reads the
    fields of its object. *)
Definition in_object (text : list ascii) (pos : nat) : R.t :=
  {| R.m_str := text; R.m_pos := pos; R.m_obj_count := 1;
     R.m_obj_had_left_parenthesis := [true]; R.derefs := [] |}.

(** Text made of spaces and commas only. *)
Definition separators (l : list ascii) : Prop :=
  Forall (fun c => R.is_space_or_comma c = true) l.

(** [closes_object top rem tail]: the text [rem] under the cursor closes the
    innermost object and [tail] is what follows.  An object that had its
    left parenthesis ([top]) closes with separators and a right parenthesis;
    one that had none closes with nothing. *)
Definition closes_object (top : bool) (rem tail : list ascii) : Prop :=
  if top then exists seps, separators seps /\ rem = seps ++ ")"%char :: tail
  else rem = tail.

(** The first statement of [end_object] for a non-empty stack: read the right
    parenthesis if the object had a left one. *)
Definition close_top (top : bool) : R.M unit :=
  if top then R.consume ")" else R.ret tt.

(** [bounded text r]: [r] reads [text], its cursor is an iterator of [text],
    and every dereference so far was at an offset of [text] or at its end,
    where the terminator is. *)
Definition bounded (text : list ascii) (r : R.t) : Prop :=
  R.m_str r = text
  /\ R.m_pos r <= length text
  /\ Forall (fun p => p <= length text) (R.derefs r).

(** An operation keeps the reader bounded, whether it returns or throws. *)
Definition preserves {A : Type} (m : R.M A) : Prop :=
  forall text r, bounded text r -> bounded text (R.final (m r)).

(** The characters [pt_writer] puts between the two quotes of a string. *)
Definition escape (str : list ascii) : list ascii :=
  flat_map (fun c => if Ascii.eqb c dquote then [backslash; dquote] else [c]) str.

(** The text of an object named [T] whose only field is the value [v], as a
    descriptor writes it on a fresh writer. *)
Definition render_field (v : primitive_variant) : list ascii :=
  W.out (W.end_object (W.write_value insert_nothing v (W.begin_object #"T" W.init))).

(** Reading that text back up to the field: [seek_object], [begin_object]
    and [read_value] with the tag of a string. *)
Definition parse_string_field (text : list ascii) : R.outcome primitive_variant :=
  R.bind R.seek_object
    (fun n => R.bind (R.begin_object n)
                (fun _ => R.read_value extract_nothing pt_u8string))
    (R.init text).

(** [join sep texts]: the texts with [sep] between them. *)
Fixpoint join (sep : list ascii) (texts : list (list ascii)) : list ascii :=
  match texts with
  | [] => []
  | [t] => t
  | t :: texts' => t ++ sep ++ join sep texts'
  end.

(** The public member functions of the writer, as the requests a caller
    (a type descriptor's [serialize]) can make, and a run of such requests. *)
Inductive writer_call : Type :=
| wcall_begin_object (type_name : list ascii)
| wcall_end_object
| wcall_begin_sequence (size : Z)
| wcall_end_sequence
| wcall_write_value (value : primitive_variant)
| wcall_write_tuple (values : list primitive_variant).

Definition writer_run (ostream_insert : arithmetic_type -> Z -> list ascii)
    (c : writer_call) (w : W.t) : W.t :=
  match c with
  | wcall_begin_object n => W.begin_object n w
  | wcall_end_object => W.end_object w
  | wcall_begin_sequence size => W.begin_sequence size w
  | wcall_end_sequence => W.end_sequence w
  | wcall_write_value v => W.write_value ostream_insert v w
  | wcall_write_tuple vs => W.write_tuple ostream_insert vs w
  end.

Definition writer_run_all (ostream_insert : arithmetic_type -> Z -> list ascii)
    (cs : list writer_call) (w : W.t) : W.t :=
  fold_left (fun w c => writer_run ostream_insert c w) cs w.

(** An operation leaves the object counter and the parenthesis stack as
    they are, whether it returns or throws. *)
Definition keeps_scopes {A : Type} (m : R.M A) : Prop :=
  forall r,
    R.m_obj_count (R.final (m r)) = R.m_obj_count r
    /\ R.m_obj_had_left_parenthesis (R.final (m r))
       = R.m_obj_had_left_parenthesis r.

(** The object counter is the depth of the parenthesis stack. *)
Definition counts_depth (r : R.t) : Prop :=
  R.m_obj_count r
  = (Z.of_nat (length (R.m_obj_had_left_parenthesis r)) mod R.size_max)%Z.

(** ** Lists of characters *)

Lemma find_if_le (p : ascii -> bool) (l : list ascii) :
  find_if p l <= length l.
Proof. induction l as [|c l IH]; simpl; [lia|]. destruct (p c); simpl; lia. Qed.

Lemma find_if_found (p : ascii -> bool) (l : list ascii) (d : ascii) :
  find_if p l < length l -> p (nth (find_if p l) l d) = true.
Proof.
  induction l as [|c l IH]; simpl; [lia|].
  destruct (p c) eqn:E; simpl; [auto|]. intros H. apply IH. lia.
Qed.

Lemma find_if_prefix (p : ascii -> bool) (l : list ascii) :
  Forall (fun c => p c = false) (firstn (find_if p l) l).
Proof.
  induction l as [|c l IH]; simpl; [constructor|].
  destruct (p c) eqn:E; simpl; [constructor|]. constructor; assumption.
Qed.

Lemma find_if_app (p : ascii -> bool) (a l : list ascii) :
  Forall (fun c => p c = false) a ->
  find_if p (a ++ l) = length a + find_if p l.
Proof.
  induction 1 as [|c a Hc _ IH]; simpl; [reflexivity|].
  rewrite Hc, IH. reflexivity.
Qed.

Lemma nth_hd_skipn (n : nat) (l : list ascii) (d : ascii) :
  nth n l d = hd d (skipn n l).
Proof.
  revert l; induction n as [|n IH]; intros [|c l]; simpl; auto.
Qed.

Lemma skipn_cons_inv (n : nat) (l : list ascii) (c : ascii) (rest : list ascii) :
  skipn n l = c :: rest -> skipn (n + 1) l = rest /\ n < length l.
Proof.
  revert l; induction n as [|n IH]; intros [|x l]; simpl; try discriminate.
  - intros H; inversion H; subst. split; [reflexivity|lia].
  - intros H. destruct (IH _ H). split; [assumption|lia].
Qed.

Lemma range_firstn_remaining (s : list ascii) (pos n : nat) :
  range s pos (pos + n) = firstn n (skipn pos s).
Proof. unfold range. f_equal. lia. Qed.

(** ** The reader's primitive operations *)

Lemma cur_hd (r : R.t) : cur r = hd NUL (R.remaining r).
Proof. apply nth_hd_skipn. Qed.

Lemma skip_loop_spec (fuel : nat) :
  forall r, length (R.remaining r) < fuel ->
            R.skip_loop fuel r = R.Ok tt (skipped r).
Proof.
  induction fuel as [|fuel IH]; intros r Hfuel; [lia|].
  simpl. unfold R.bind at 1. unfold R.deref.
  fold (cur r). rewrite cur_hd.
  unfold skipped. destruct (R.remaining r) as [|c rest] eqn:Erem.
  - simpl. unfold R.ret, R.log_deref. rewrite Nat.add_0_r. reflexivity.
  - cbn [hd]. unfold leading_separators. cbn [find_if].
    destruct (R.is_space_or_comma c) eqn:Ec; cbn [negb].
    + fold (leading_separators rest).
      unfold R.bind, R.advance, R.modify.
      set (r1 := R.set_pos _ _).
      assert (Hrest : R.remaining r1 = rest).
      { unfold R.remaining, r1; simpl.
        unfold R.remaining in Erem. apply skipn_cons_inv in Erem. tauto. }
      rewrite IH by (rewrite Hrest; simpl in Hfuel; lia).
      unfold skipped. rewrite Hrest. unfold r1; simpl.
      f_equal. f_equal; [lia|].
      replace (R.m_pos r + 1) with (S (R.m_pos r)) by lia.
      rewrite <- !app_assoc. reflexivity.
    + unfold R.ret, R.log_deref. simpl. rewrite Nat.add_0_r. reflexivity.
Qed.

Lemma skip_space_and_comma_spec (r : R.t) :
  R.skip_space_and_comma r = R.Ok tt (skipped r).
Proof.
  unfold R.skip_space_and_comma. apply skip_loop_spec.
  unfold R.remaining. rewrite length_skipn. lia.
Qed.

Lemma remaining_skipped (r : R.t) :
  R.remaining (skipped r)
  = skipn (leading_separators (R.remaining r)) (R.remaining r).
Proof.
  unfold R.remaining at 1 3. rewrite skipn_skipn. unfold skipped; simpl.
  f_equal. apply Nat.add_comm.
Qed.

Lemma leading_separators_stop (l : list ascii) :
  R.is_space_or_comma (hd NUL (skipn (leading_separators l) l)) = false.
Proof.
  induction l as [|c l IH]; [reflexivity|].
  unfold leading_separators; simpl.
  destruct (R.is_space_or_comma c) eqn:Ec; simpl; auto.
Qed.

Lemma cur_skipped_not_separator (r : R.t) :
  R.is_space_or_comma (cur (skipped r)) = false.
Proof. rewrite cur_hd, remaining_skipped. apply leading_separators_stop. Qed.

Lemma leading_separators_le (l : list ascii) : leading_separators l <= length l.
Proof. apply find_if_le. Qed.

Lemma leading_separators_zero (l : list ascii) :
  R.is_space_or_comma (hd NUL l) = false -> leading_separators l = 0.
Proof.
  destruct l as [|c l]; [reflexivity|]. unfold leading_separators; simpl.
  intros ->. reflexivity.
Qed.

Lemma in_bounds_skipped (r : R.t) : in_bounds r -> in_bounds (skipped r).
Proof.
  unfold in_bounds, skipped; simpl. intros H.
  pose proof (leading_separators_le (R.remaining r)) as Hle.
  unfold R.remaining in Hle at 2. rewrite length_skipn in Hle. lia.
Qed.

Lemma length_remaining (r : R.t) :
  length (R.remaining r) = length (R.m_str r) - R.m_pos r.
Proof. unfold R.remaining. apply length_skipn. Qed.

(** At the end of the input [*m_pos] is the terminator. *)
Lemma cur_at_end (r : R.t) : length (R.m_str r) <= R.m_pos r -> cur r = NUL.
Proof. intros H. unfold cur. apply nth_overflow. assumption. Qed.

Lemma cur_not_NUL_in_string (r : R.t) :
  cur r <> NUL -> R.m_pos r < length (R.m_str r).
Proof.
  intros H. destruct (Nat.lt_ge_cases (R.m_pos r) (length (R.m_str r))); auto.
  exfalso. apply H. apply cur_at_end. assumption.
Qed.

(** ** The writer *)

Lemma put_prepend (s x : list ascii) (w : W.t) :
  W.put x (prepend s w) = prepend s (W.put x w).
Proof. unfold W.put, prepend; simpl. rewrite app_assoc. reflexivity. Qed.

Lemma clear_prepend (s : list ascii) (w : W.t) :
  W.clear (prepend s w) = prepend s (W.clear w).
Proof.
  unfold W.clear; simpl.
  destruct (W.m_after_value w); [rewrite put_prepend; reflexivity|].
  destruct (W.m_obj_just_opened w); [rewrite put_prepend; reflexivity|].
  reflexivity.
Qed.

Lemma write_value_prepend ins (s : list ascii) (v : primitive_variant) (w : W.t) :
  W.write_value ins v (prepend s w) = prepend s (W.write_value ins v w).
Proof.
  unfold W.write_value. rewrite clear_prepend, put_prepend. reflexivity.
Qed.

Lemma write_values_prepend ins (s : list ascii) (vs : list primitive_variant) :
  forall w, W.write_values ins vs (prepend s w)
            = prepend s (W.write_values ins vs w).
Proof.
  induction vs as [|v vs IH]; intros w; simpl; [reflexivity|].
  rewrite write_value_prepend. apply IH.
Qed.

Lemma end_sequence_prepend (s : list ascii) (w : W.t) :
  W.end_sequence (prepend s w) = prepend s (W.end_sequence w).
Proof. unfold W.end_sequence. rewrite put_prepend. reflexivity. Qed.

Lemma put_flags (x : list ascii) (w : W.t) :
  W.put x w = prepend (W.out w ++ x) (flags w).
Proof. unfold W.put, prepend, flags; simpl. rewrite app_nil_r. reflexivity. Qed.

(** The text a bracketed run of values adds behind its opening token. *)
Lemma bracket_body ins (opening : list ascii) (vs : list primitive_variant)
    (w : W.t) :
  W.end_sequence (W.write_values ins vs (W.put opening w))
  = prepend (W.out w ++ opening)
      (W.end_sequence (W.write_values ins vs (flags w))).
Proof.
  rewrite put_flags, write_values_prepend, end_sequence_prepend. reflexivity.
Qed.

(** C7, as the specification states it, fails: a tuple of the two strings
    [a] and [b] is not rendered with the characters of the sequence bracket
    around the same two values. *)
Lemma write_tuple_differs_from_sequence :
  W.out (W.write_tuple insert_nothing
           [pv_u8string #"a"; pv_u8string #"b"] W.init)
  <> W.out (W.end_sequence
              (W.write_values insert_nothing
                 [pv_u8string #"a"; pv_u8string #"b"]
                 (W.begin_sequence 2 W.init))).
Proof. vm_compute. discriminate. Qed.

(** C7 (amended): from the same writer state, [write_tuple] and the bracket
    [begin_sequence; write_value ...; end_sequence] first emit the same
    separator (that of [clear]), then the opening token, which is
    space-brace for the tuple and brace-space for the sequence, and then
    the same text: the values separated by comma-space and the closing
    brace.  Both leave the writer with the same flags. *)
Theorem write_tuple_sequence_same_body
    (ostream_insert : arithmetic_type -> Z -> list ascii)
    (size : Z) (values : list primitive_variant) (w : W.t) :
  let body :=
    W.out (W.end_sequence
             (W.write_values ostream_insert values (flags (W.clear w)))) in
  let tuple := W.write_tuple ostream_insert values w in
  let sequence :=
    W.end_sequence
      (W.write_values ostream_insert values (W.begin_sequence size w)) in
  W.out tuple = W.out (W.clear w) ++ #" {" ++ body
  /\ W.out sequence = W.out (W.clear w) ++ #"{ " ++ body
  /\ flags tuple = flags sequence.
Proof.
  intros body tuple sequence.
  assert (Ht : tuple
               = W.end_sequence
                   (W.write_values ostream_insert values
                      (W.put #" {" (W.clear w)))) by reflexivity.
  unfold sequence, W.begin_sequence. rewrite Ht, !bracket_body.
  unfold body. simpl. rewrite <- !app_assoc. auto.
Qed.

(** C8, as the specification states it, fails: on a fresh writer, where no
    object scope is open, [end_object] returns and has written a closing
    parenthesis. *)
Lemma serializer_end_object_without_scope_emits :
  W.m_open_objects W.init = 0%Z
  /\ W.out (W.end_object W.init) = #")"
  /\ W.out (W.end_object W.init) <> W.out W.init.
Proof. vm_compute. repeat split. discriminate. Qed.

(** C8 (amended): the writer's [end_object] never fails and does not look at
    the number of open objects.  In every state it returns: right after an
    object name it writes nothing, otherwise it appends a closing
    parenthesis, with a space in front iff a value was just written; it
    leaves [m_after_value] set, [m_obj_just_opened] cleared and
    [m_open_objects] as it was.  So on a fresh writer it writes a lone
    parenthesis, and a second [end_object] after a closed void object adds
    space-parenthesis. *)
Theorem serializer_end_object_always_returns (w : W.t) :
  W.out (W.end_object w)
  = W.out w ++ (if W.m_obj_just_opened w then []
                else if W.m_after_value w then #" )" else #")")
  /\ W.m_after_value (W.end_object w) = true
  /\ W.m_obj_just_opened (W.end_object w) = false
  /\ W.m_open_objects (W.end_object w) = W.m_open_objects w
  /\ W.out (W.end_object W.init) = #")"
  /\ (forall name,
        W.out (W.end_object (W.end_object (W.begin_object name W.init)))
        = name ++ #" )").
Proof.
  unfold W.end_object.
  destruct (W.m_obj_just_opened w) eqn:Hj; simpl; rewrite ?Hj, ?app_nil_r;
    repeat split; destruct (W.m_after_value w); reflexivity.
Qed.

(** ** Type names: [seek_object] and [peek_object] *)

Lemma seek_object_spec (r : R.t) :
  R.seek_object r
  = let r1 := skipped r in
    let d := find_if R.is_delimiter (R.remaining r1) in
    if Nat.eqb d 0 then
      R.Throw
        (R.logic_error (#"malformed string: " ++ #"could not seek object type name"))
        r1
    else R.Ok (firstn d (R.remaining r1)) (R.set_pos (R.m_pos r1 + d) r1).
Proof.
  unfold R.seek_object, R.bind at 1. rewrite skip_space_and_comma_spec.
  unfold R.bind, R.next_delimiter, R.gets, R.modify, R.ret. cbv zeta.
  set (r1 := skipped r). set (d := find_if _ _).
  destruct d as [|d'] eqn:Ed.
  - rewrite Nat.add_0_r, Nat.eqb_refl. reflexivity.
  - replace (Nat.eqb (R.m_pos r1) (R.m_pos r1 + S d')) with false
      by (symmetry; apply Nat.eqb_neq; lia).
    cbn [Nat.eqb]. rewrite range_firstn_remaining. reflexivity.
Qed.

Lemma skipped_again (r : R.t) (p : nat) :
  p = R.m_pos (skipped r) ->
  leading_separators (R.remaining (R.set_pos p (skipped r))) = 0.
Proof.
  intros ->. apply leading_separators_zero.
  change (R.remaining (R.set_pos (R.m_pos (skipped r)) (skipped r)))
    with (R.remaining (skipped r)).
  rewrite <- cur_hd. apply cur_skipped_not_separator.
Qed.

Lemma peek_object_spec (r : R.t) :
  R.peek_object r
  = let r1 := skipped r in
    let d := find_if R.is_delimiter (R.remaining r1) in
    if Nat.eqb d 0 then
      R.Throw
        (R.logic_error (#"malformed string: " ++ #"could not seek object type name"))
        r1
    else R.Ok (firstn d (R.remaining r1)) (R.set_pos (R.m_pos r1) r1).
Proof.
  unfold R.peek_object, R.bind. rewrite seek_object_spec. cbv zeta.
  set (r1 := skipped r). set (d := find_if _ _).
  assert (Hd : d <= length (R.remaining r1)) by apply find_if_le.
  destruct (Nat.eqb d 0); [reflexivity|].
  unfold R.modify, R.ret. rewrite length_firstn.
  unfold R.set_pos; simpl. do 2 f_equal. lia.
Qed.

(** The part of C5 that holds on the code: [peek_object] leaves the name
    unread, and [seek_object] right after it reads the same name and stops
    where a single [seek_object] stops.  For every reader state [r]: if
    [seek_object] returns [name] and the state [r'], then [peek_object]
    returns [name] with the cursor [r1] put back to where the name begins
    (which is where [skip_space_and_comma] stops: the cursor's own place
    only when no separator precedes the name), and [seek_object] from [r1]
    returns [name] again and ends with the input, cursor, object counter and
    parenthesis stack of [r'].  If [seek_object] throws, [peek_object]
    throws the same exception. *)
Theorem peek_object_then_seek_object (r : R.t) :
  match R.seek_object r with
  | R.Ok name r' =>
      exists r1 r2,
        R.peek_object r = R.Ok name r1
        /\ R.m_pos r1 = R.m_pos (R.final (R.skip_space_and_comma r))
        /\ (R.is_space_or_comma (cur r) = false -> R.m_pos r1 = R.m_pos r)
        /\ range (R.m_str r1) (R.m_pos r1) (R.m_pos r') = name
        /\ R.seek_object r1 = R.Ok name r2
        /\ R.m_pos r2 = R.m_pos r'
        /\ R.m_str r2 = R.m_str r'
        /\ R.m_obj_count r2 = R.m_obj_count r'
        /\ R.m_obj_had_left_parenthesis r2 = R.m_obj_had_left_parenthesis r'
  | R.Throw e _ => exists r1, R.peek_object r = R.Throw e r1
  end.
Proof.
  rewrite skip_space_and_comma_spec. cbn [R.final].
  rewrite peek_object_spec, seek_object_spec. cbv zeta.
  set (r1 := skipped r).
  set (d := find_if R.is_delimiter (R.remaining r1)).
  assert (Hd : d <= length (R.remaining r1)) by apply find_if_le.
  destruct (Nat.eqb d 0) eqn:Ed0; [eexists; reflexivity|].
  apply Nat.eqb_neq in Ed0.
  assert (Hsk : leading_separators (R.remaining (R.set_pos (R.m_pos r1) r1)) = 0)
    by (apply skipped_again; reflexivity).
  set (p := R.set_pos (R.m_pos r1) r1) in *.
  assert (Hrem' : R.remaining (skipped p) = R.remaining r1)
    by (rewrite remaining_skipped, Hsk; reflexivity).
  exists p. eexists. split; [reflexivity|].
  split; [reflexivity|].
  split.
  { intros Hc. unfold p, r1, skipped; simpl.
    rewrite leading_separators_zero; [lia|]. rewrite <- cur_hd. exact Hc. }
  split.
  { simpl R.m_pos. rewrite range_firstn_remaining. reflexivity. }
  rewrite seek_object_spec. cbv zeta. rewrite Hrem'. fold d.
  destruct (Nat.eqb d 0) eqn:Ed0'; [apply Nat.eqb_eq in Ed0'; lia|].
  split; [reflexivity|].
  unfold skipped; rewrite Hsk; simpl.
  repeat split. lia.
Qed.

(** C5 fails on the code when separators precede the name: [peek_object]
    does not restore the position.  It subtracts the length of the name
    from the position behind the name, so the cursor comes back to where
    the name begins, and the separators that [seek_object] has skipped stay
    skipped.  On the text [ ,Foo ( 1 )], read from offset 0, [peek_object]
    returns [Foo] and leaves the cursor at offset 2.  In general, whenever
    [peek_object] returns, the cursor has moved forward by the number of
    spaces and commas under it: the position is restored exactly when there
    is none. *)
Theorem peek_object_keeps_separators_skipped :
  (exists r1,
      R.peek_object (R.init #" ,Foo ( 1 )") = R.Ok #"Foo" r1
      /\ R.m_pos (R.init #" ,Foo ( 1 )") = 0
      /\ R.m_pos r1 = 2)
  /\ (forall r name r1,
         R.peek_object r = R.Ok name r1 ->
         R.m_pos r1 = R.m_pos r + leading_separators (R.remaining r)
         /\ (R.m_pos r1 = R.m_pos r
             <-> R.is_space_or_comma (hd NUL (R.remaining r)) = false)).
Proof.
  split; [eexists; vm_compute; auto|].
  intros r name r1. rewrite peek_object_spec. cbv zeta.
  destruct (Nat.eqb _ 0); [discriminate|]. intros [= _ <-].
  split; [reflexivity|].
  cbn [R.m_pos R.set_pos skipped].
  destruct (R.remaining r) as [|c l] eqn:Erem.
  - unfold leading_separators. cbn [find_if hd].
    split; intros; [reflexivity|lia].
  - unfold leading_separators. cbn [find_if hd].
    destruct (R.is_space_or_comma c); cbn [negb]; split;
      intros H; try reflexivity; try discriminate; lia.
Qed.

(** ** Single characters: [consume] and [try_consume] *)

Lemma consume_spec (c : ascii) (r : R.t) :
  R.consume c r
  = let r1 := skipped r in
    if Ascii.eqb (cur r1) c
    then R.Ok tt (R.set_pos (R.m_pos r1 + 1) (R.log_deref r1))
    else R.Throw
           (R.logic_error
              (#"malformed string: "
               ++ #"expected '" ++ [c] ++ #"' found '" ++ [cur r1] ++ #"'"))
           (R.log_deref (R.log_deref r1)).
Proof.
  unfold R.consume, R.bind at 1. rewrite skip_space_and_comma_spec.
  unfold R.bind, R.deref. fold (cur (skipped r)). cbv zeta.
  destruct (Ascii.eqb (cur (skipped r)) c); reflexivity.
Qed.

Lemma try_consume_spec (c : ascii) (r : R.t) :
  R.try_consume c r
  = let r1 := skipped r in
    if Ascii.eqb (cur r1) c
    then R.Ok true (R.set_pos (R.m_pos r1 + 1) (R.log_deref r1))
    else R.Ok false (R.log_deref r1).
Proof.
  unfold R.try_consume, R.bind at 1. rewrite skip_space_and_comma_spec.
  unfold R.bind, R.deref. fold (cur (skipped r)). cbv zeta.
  destruct (Ascii.eqb (cur (skipped r)) c); reflexivity.
Qed.

Lemma separators_leading (l : list ascii) :
  separators l <-> leading_separators l = length l.
Proof.
  unfold separators, leading_separators.
  induction l as [|c l IH]; simpl; [split; auto|].
  destruct (R.is_space_or_comma c) eqn:Ec; simpl.
  - split; intros H.
    + inversion H; subst. f_equal. apply IH. assumption.
    + constructor; [assumption|]. apply IH. congruence.
  - split; [intros H; inversion H; congruence | discriminate].
Qed.

Lemma leading_separators_app (seps l : list ascii) :
  separators seps ->
  leading_separators (seps ++ l) = length seps + leading_separators l.
Proof.
  intros H. apply find_if_app.
  apply Forall_impl with (2 := H). intros c ->. reflexivity.
Qed.

Lemma leading_separators_split (l : list ascii) :
  separators (firstn (leading_separators l) l).
Proof.
  unfold separators.
  apply Forall_impl with (2 := find_if_prefix _ l).
  intros c Hc. apply negb_false_iff in Hc. exact Hc.
Qed.

(** The cursor reaches the end of the input by skipping iff only separators
    are left. *)
Lemma skipped_at_end (r : R.t) :
  in_bounds r ->
  (R.m_pos (skipped r) = length (R.m_str r) <-> separators (R.remaining r)).
Proof.
  unfold in_bounds. intros Hb. rewrite separators_leading, length_remaining.
  unfold skipped; simpl. lia.
Qed.

Lemma remaining_cons_cur (r : R.t) (c : ascii) :
  cur r = c -> c <> NUL -> exists tail, R.remaining r = c :: tail.
Proof.
  rewrite cur_hd. destruct (R.remaining r) as [|x tail]; simpl.
  - intros <- H. contradiction.
  - intros -> _. eauto.
Qed.

Lemma remaining_advance (r : R.t) (c : ascii) (tail : list ascii) (r' : R.t) :
  R.remaining r = c :: tail ->
  R.m_str r' = R.m_str r -> R.m_pos r' = R.m_pos r + 1 ->
  R.remaining r' = tail.
Proof.
  unfold R.remaining. intros H Hs Hp. rewrite Hs, Hp.
  apply skipn_cons_inv in H. tauto.
Qed.

(** ** Objects: [begin_object] and [end_object] *)

Lemma end_object_unfold (r : R.t) (top : bool) (st : list bool) :
  R.m_obj_had_left_parenthesis r = top :: st ->
  R.end_object r
  = match close_top top r with
    | R.Throw e r' => R.Throw e r'
    | R.Ok _ ra =>
        let rb := R.set_obj_count (R.decr_size (R.m_obj_count ra))
                    (R.set_stack st ra) in
        if Z.eqb (R.m_obj_count rb) 0 then
          let rc := skipped rb in
          if Nat.eqb (R.m_pos rc) (length (R.m_str rc)) then R.Ok tt rc
          else R.Throw
                 (R.logic_error
                    (#"malformed string: " ++ #"expected end of of string"))
                 rc
        else R.Ok tt rb
    end.
Proof.
  intros Hst. unfold R.end_object, close_top.
  unfold R.bind at 1, R.gets at 1. rewrite Hst.
  unfold R.bind at 1. unfold R.bind at 1.
  destruct ((if top then R.consume ")" else R.ret tt) r) as [[] ra|e ra];
    [|reflexivity].
  unfold R.modify at 1. unfold R.bind at 1. unfold R.modify at 1.
  unfold R.bind at 1. unfold R.gets at 1. cbv zeta.
  destruct (Z.eqb _ 0); [|reflexivity].
  unfold R.bind at 1. rewrite skip_space_and_comma_spec.
  unfold R.bind, R.gets.
  destruct (Nat.eqb _ _); reflexivity.
Qed.

Lemma close_top_ok (r : R.t) (top : bool) (tail : list ascii) :
  in_bounds r ->
  closes_object top (R.remaining r) tail ->
  exists ra,
    close_top top r = R.Ok tt ra
    /\ R.remaining ra = tail /\ in_bounds ra
    /\ R.m_str ra = R.m_str r /\ R.m_obj_count ra = R.m_obj_count r.
Proof.
  intros Hb Hc. destruct top; simpl in Hc.
  - destruct Hc as (seps & Hseps & Hrem).
    unfold close_top. rewrite consume_spec. cbv zeta.
    assert (Hlead : leading_separators (R.remaining r) = length seps).
    { rewrite Hrem, leading_separators_app by assumption.
      unfold leading_separators; simpl. lia. }
    assert (Hrem1 : R.remaining (skipped r) = ")"%char :: tail).
    { rewrite remaining_skipped, Hlead, Hrem.
      rewrite skipn_app, Nat.sub_diag, skipn_all. reflexivity. }
    assert (Hcur : cur (skipped r) = ")"%char) by (rewrite cur_hd, Hrem1; reflexivity).
    rewrite Hcur. simpl Ascii.eqb. cbv iota.
    eexists. split; [reflexivity|].
    split; [apply remaining_advance with (1 := Hrem1); reflexivity|].
    split; [|split; reflexivity].
    unfold in_bounds; simpl R.m_pos; simpl R.m_str.
    unfold R.remaining in Hrem1. apply skipn_cons_inv in Hrem1.
    simpl in Hrem1. lia.
  - exists r. subst tail. repeat split; assumption.
Qed.

Lemma close_top_inv (r ra : R.t) (top : bool) :
  close_top top r = R.Ok tt ra ->
  closes_object top (R.remaining r) (R.remaining ra)
  /\ (in_bounds r -> in_bounds ra)
  /\ R.m_str ra = R.m_str r /\ R.m_obj_count ra = R.m_obj_count r.
Proof.
  destruct top; unfold close_top.
  - rewrite consume_spec. cbv zeta.
    destruct (Ascii.eqb (cur (skipped r)) ")") eqn:Ec; [|discriminate].
    apply Ascii.eqb_eq in Ec. intros [= <-].
    destruct (remaining_cons_cur (skipped r) _ Ec) as [tail Htail];
      [discriminate|].
    match goal with
    | |- closes_object _ _ (R.remaining ?ra) /\ _ =>
        assert (Hra : R.remaining ra = tail)
          by (apply remaining_advance with (1 := Htail); reflexivity)
    end.
    rewrite Hra. split; [|split; [|split; reflexivity]].
    + simpl. exists (firstn (leading_separators (R.remaining r)) (R.remaining r)).
      split; [apply leading_separators_split|].
      rewrite <- Htail, remaining_skipped, firstn_skipn. reflexivity.
    + intros Hb. apply in_bounds_skipped in Hb.
      unfold in_bounds in *; simpl R.m_pos; simpl R.m_str.
      unfold R.remaining in Htail. apply skipn_cons_inv in Htail.
      simpl in Htail. simpl in Hb. lia.
  - unfold R.ret. intros H; inversion H; subst. simpl. auto.
Qed.

Lemma outermost_check (ra : R.t) (st : list bool) :
  in_bounds ra -> R.m_obj_count ra = 1%Z ->
  let rb := R.set_obj_count (R.decr_size (R.m_obj_count ra))
              (R.set_stack st ra) in
  Z.eqb (R.m_obj_count rb) 0 = true
  /\ (Nat.eqb (R.m_pos (skipped rb)) (length (R.m_str (skipped rb))) = true
      <-> separators (R.remaining ra)).
Proof.
  intros Hb Hc rb. split.
  - unfold rb; simpl. rewrite Hc. reflexivity.
  - rewrite Nat.eqb_eq.
    change (length (R.m_str (skipped rb))) with (length (R.m_str rb)).
    apply (skipped_at_end rb). exact Hb.
Qed.

(** C4: the [end_object] that takes the object counter from one to zero
    demands that nothing but spaces and commas is left.  Let [r] be a reader
    state with one open object, [top] telling whether that object had its
    left parenthesis.  If the text under the cursor closes the object (a
    right parenthesis preceded by separators when [top], nothing otherwise)
    and [tail] follows, then [end_object] returns with an empty stack, a
    zero counter and the cursor at the end of the input when [tail] consists
    of spaces and commas, and throws the malformed-string error "expected
    end of of string" when it does not.  Conversely [end_object] returns
    only in the first case, and whatever it throws is a malformed-string
    error. *)
Theorem end_object_outermost (r : R.t) (top : bool) (st : list bool) :
  in_bounds r ->
  R.m_obj_had_left_parenthesis r = top :: st ->
  R.m_obj_count r = 1%Z ->
  (forall tail,
      closes_object top (R.remaining r) tail -> separators tail ->
      exists r', R.end_object r = R.Ok tt r'
                 /\ R.m_pos r' = length (R.m_str r)
                 /\ R.m_str r' = R.m_str r
                 /\ R.m_obj_count r' = 0%Z
                 /\ R.m_obj_had_left_parenthesis r' = st)
  /\ (forall tail,
         closes_object top (R.remaining r) tail -> ~ separators tail ->
         exists r',
           R.end_object r
           = R.Throw
               (R.logic_error
                  (#"malformed string: " ++ #"expected end of of string")) r')
  /\ (forall r',
         R.end_object r = R.Ok tt r' ->
         exists tail, closes_object top (R.remaining r) tail /\ separators tail)
  /\ (forall e r',
         R.end_object r = R.Throw e r' ->
         exists msg, e = R.logic_error (#"malformed string: " ++ msg)).
Proof.
  intros Hb Hst Hc. rewrite (end_object_unfold r top st Hst).
  split; [|split; [|split]].
  - intros tail Hclose Hsep.
    destruct (close_top_ok r top tail Hb Hclose) as (ra & -> & Hrem & Hba & Hstr & Hcnt).
    rewrite Hc in Hcnt.
    destruct (outermost_check ra st Hba Hcnt) as [Hz Hend]. cbv zeta in *.
    rewrite Hz. rewrite Hrem in Hend. apply Hend in Hsep. rewrite Hsep.
    eexists. split; [reflexivity|].
    apply Nat.eqb_eq in Hsep. simpl R.m_str in *. rewrite <- Hstr.
    split; [exact Hsep|]. split; [reflexivity|]. split; [|reflexivity].
    simpl. rewrite Hcnt. reflexivity.
  - intros tail Hclose Hsep.
    destruct (close_top_ok r top tail Hb Hclose) as (ra & -> & Hrem & Hba & Hstr & Hcnt).
    rewrite Hc in Hcnt.
    destruct (outermost_check ra st Hba Hcnt) as [Hz Hend]. cbv zeta in *.
    rewrite Hz. rewrite Hrem in Hend.
    destruct (Nat.eqb _ _); [exfalso; apply Hsep, Hend; reflexivity|].
    eexists. reflexivity.
  - intros r'.
    destruct (close_top top r) as [[] ra|e ra] eqn:Eclose; [|discriminate].
    destruct (close_top_inv r ra top Eclose) as (Hclose & Hba & Hstr & Hcnt).
    rewrite Hc in Hcnt.
    destruct (outermost_check ra st (Hba Hb) Hcnt) as [Hz Hend]. cbv zeta in *.
    rewrite Hz. destruct (Nat.eqb _ _); [|discriminate].
    intros _. exists (R.remaining ra). split; [exact Hclose|].
    apply Hend. reflexivity.
  - intros e r'.
    destruct (close_top top r) as [[] ra|e' ra] eqn:Eclose.
    + cbv zeta. destruct (Z.eqb _ 0); [|discriminate].
      destruct (Nat.eqb _ _); [discriminate|].
      intros [= <- _]. eexists. reflexivity.
    + intros [= <- _]. destruct top; unfold close_top in Eclose.
      * rewrite consume_spec in Eclose. cbv zeta in Eclose.
        destruct (Ascii.eqb _ _); [discriminate|].
        injection Eclose as <- _. eexists. reflexivity.
      * discriminate.
Qed.

(** A reader with one open object whose cursor stands before
    space-parenthesis-space at the end of the input closes it. *)
Lemma end_object_outermost_witness :
  exists r', R.end_object (in_object #"Foo ( 1 ) " 7) = R.Ok tt r'
             /\ R.m_pos r' = 10.
Proof.
  destruct (end_object_outermost (in_object #"Foo ( 1 ) " 7) true [])
    as [Hok _].
  - unfold in_bounds. simpl. lia.
  - reflexivity.
  - reflexivity.
  - destruct (Hok #" ") as (r' & H1 & H2 & _).
    + simpl. exists #" ". split; [|reflexivity].
      repeat constructor.
    + repeat constructor.
    + exists r'. split; [exact H1 | exact H2].
Defined.

Lemma begin_object_spec (name : list ascii) (r : R.t) :
  R.begin_object name r
  = let r2 := skipped (skipped (R.set_obj_count (R.incr_size (R.m_obj_count r)) r)) in
    if Ascii.eqb (cur r2) "("
    then R.Ok tt (R.set_stack (true :: R.m_obj_had_left_parenthesis r)
                    (R.set_pos (R.m_pos r2 + 1) (R.log_deref r2)))
    else R.Ok tt (R.set_stack (false :: R.m_obj_had_left_parenthesis r)
                    (R.log_deref r2)).
Proof.
  unfold R.begin_object, R.bind at 1. unfold R.modify at 1.
  unfold R.bind at 1. rewrite skip_space_and_comma_spec.
  unfold R.bind at 1. rewrite try_consume_spec. cbv zeta.
  destruct (Ascii.eqb _ "("); reflexivity.
Qed.

Lemma skipped_twice_pos (r : R.t) :
  R.m_pos (skipped (skipped r)) = R.m_pos (skipped r)
  /\ R.remaining (skipped (skipped r)) = R.remaining (skipped r).
Proof.
  assert (H : leading_separators (R.remaining (skipped r)) = 0).
  { apply leading_separators_zero. rewrite <- cur_hd.
    apply cur_skipped_not_separator. }
  split.
  - unfold skipped at 1. simpl. rewrite H. lia.
  - rewrite (remaining_skipped (skipped r)), H. reflexivity.
Qed.

Lemma size_decr_incr (c : Z) :
  (0 <= c < R.size_max)%Z -> R.decr_size (R.incr_size c) = c.
Proof.
  unfold R.decr_size, R.incr_size, R.size_max. intros H.
  rewrite Zminus_mod_idemp_l.
  replace (c + 1 - 1)%Z with c by lia. apply Z.mod_small. lia.
Qed.

(** A type name for the reader: not empty, and free of delimiters. *)
Lemma seek_object_name (name : list ascii) :
  name <> [] -> Forall (fun c => R.is_delimiter c = false) name ->
  exists r', R.seek_object (R.init name) = R.Ok name r'
             /\ R.m_pos r' = length name /\ R.m_str r' = name
             /\ R.m_obj_count r' = 0%Z /\ R.m_obj_had_left_parenthesis r' = [].
Proof.
  intros Hne Hall. rewrite seek_object_spec. cbv zeta.
  assert (Hsep : Forall (fun c => negb (R.is_space_or_comma c) = true) name).
  { apply Forall_impl with (2 := Hall). intros c Hc.
    unfold R.is_delimiter in Hc. unfold R.is_space_or_comma.
    destruct (Ascii.eqb c " "), (Ascii.eqb c ",");
      rewrite ?orb_true_r in Hc; try discriminate; reflexivity. }
  assert (Hlead : leading_separators (R.remaining (R.init name)) = 0).
  { unfold R.remaining; simpl. destruct name as [|c name]; [reflexivity|].
    unfold leading_separators; simpl. inversion Hsep; subst.
    match goal with H : negb _ = true |- _ => rewrite H end. reflexivity. }
  assert (Hrem : R.remaining (skipped (R.init name)) = name).
  { rewrite remaining_skipped, Hlead. reflexivity. }
  rewrite Hrem.
  assert (Hfind : find_if R.is_delimiter name = length name).
  { rewrite <- (app_nil_r name) at 1. rewrite find_if_app by assumption.
    simpl. lia. }
  rewrite Hfind, firstn_all.
  replace (Nat.eqb (length name) 0) with false
    by (destruct name; [contradiction|reflexivity]).
  eexists. split; [reflexivity|].
  unfold skipped. rewrite Hlead. simpl. repeat split.
Qed.

Lemma writer_void_object (name : list ascii) (w : W.t) :
  W.out (W.end_object (W.begin_object name w)) = W.out (W.clear w) ++ name.
Proof. reflexivity. Qed.

Lemma reader_void_object (name : list ascii) (r : R.t) :
  in_bounds r ->
  (0 <= R.m_obj_count r < R.size_max)%Z ->
  cur (R.final (R.skip_space_and_comma r)) <> "("%char ->
  exists r1,
    R.begin_object name r = R.Ok tt r1
    /\ R.m_obj_had_left_parenthesis r1
       = false :: R.m_obj_had_left_parenthesis r
    /\ R.m_pos r1 = R.m_pos (R.final (R.skip_space_and_comma r))
    /\ R.m_str r1 = R.m_str r
    /\ (R.m_obj_count r <> 0%Z ->
        exists r2,
          R.end_object r1 = R.Ok tt r2
          /\ R.m_pos r2 = R.m_pos r1
          /\ R.m_obj_had_left_parenthesis r2 = R.m_obj_had_left_parenthesis r
          /\ R.m_obj_count r2 = R.m_obj_count r)
    /\ (R.m_obj_count r = 0%Z -> separators (R.remaining r1) ->
        exists r2,
          R.end_object r1 = R.Ok tt r2
          /\ R.m_pos r2 = length (R.m_str r)
          /\ R.m_obj_had_left_parenthesis r2 = R.m_obj_had_left_parenthesis r
          /\ R.m_obj_count r2 = 0%Z).
Proof.
  rewrite skip_space_and_comma_spec. cbn [R.final].
  intros Hb Hcount Hcur.
  rewrite begin_object_spec. cbv zeta.
  set (r0 := R.set_obj_count (R.incr_size (R.m_obj_count r)) r).
  destruct (skipped_twice_pos r0) as [Hpos Hrem].
  assert (Hcur2 : cur (skipped (skipped r0)) = cur (skipped r)).
  { rewrite !cur_hd, Hrem. reflexivity. }
  rewrite Hcur2.
  destruct (Ascii.eqb (cur (skipped r)) "(") eqn:Ec;
    [apply Ascii.eqb_eq in Ec; contradiction|].
  set (r1 := R.set_stack _ _).
  assert (Hst : R.m_obj_had_left_parenthesis r1
                = false :: R.m_obj_had_left_parenthesis r) by reflexivity.
  assert (Hc1 : R.decr_size (R.m_obj_count r1) = R.m_obj_count r)
    by (apply size_decr_incr; exact Hcount).
  exists r1. split; [reflexivity|]. split; [exact Hst|].
  split; [exact Hpos|]. split; [reflexivity|].
  rewrite (end_object_unfold r1 false _ Hst).
  unfold close_top, R.ret. cbv zeta.
  change (R.m_obj_count (R.set_obj_count (R.decr_size (R.m_obj_count r1))
                           (R.set_stack (R.m_obj_had_left_parenthesis r) r1)))
    with (R.decr_size (R.m_obj_count r1)).
  rewrite Hc1. split.
  - intros Hnz. apply Z.eqb_neq in Hnz. rewrite Hnz.
    eexists. split; [reflexivity|]. simpl. auto.
  - intros Hz Hsep. rewrite Hz. cbn [Z.eqb].
    set (rb := R.set_obj_count _ _).
    assert (Hbb : in_bounds rb).
    { unfold in_bounds. change (R.m_pos rb) with (R.m_pos (skipped (skipped r0))).
      rewrite Hpos. apply (in_bounds_skipped r0). exact Hb. }
    apply (skipped_at_end rb Hbb) in Hsep.
    change (length (R.m_str (skipped rb))) with (length (R.m_str rb)).
    rewrite Hsep, Nat.eqb_refl.
    eexists. split; [reflexivity|]. split; [exact Hsep|].
    split; reflexivity.
Qed.

(** C2: an object with no field is written as its bare type name and read
    back without parentheses.
    - Writer: [begin_object name] followed at once by [end_object] adds to
      the stream the separator that [clear] owes, then exactly [name]; on a
      fresh writer the stream is [name].
    - Reader: when the next character that is not a space or a comma is not
      a left parenthesis, [begin_object] returns, pushes [false] and leaves
      the cursor on that character; the [end_object] that follows reads no
      right parenthesis: for a nested object it returns with the cursor
      where it was, the stack popped and the counter restored; for the
      outermost object it returns at the end of the input provided only
      separators are left.
    - So the text written for a void object named [name] (non-empty, free of
      delimiters) is read back by [seek_object], [begin_object],
      [end_object] without error, up to the end of the input. *)
Theorem void_object (name : list ascii) :
  (forall w,
      W.out (W.end_object (W.begin_object name w)) = W.out (W.clear w) ++ name)
  /\ W.out (W.end_object (W.begin_object name W.init)) = name
  /\ (forall r,
         in_bounds r ->
         (0 <= R.m_obj_count r < R.size_max)%Z ->
         cur (R.final (R.skip_space_and_comma r)) <> "("%char ->
         exists r1,
           R.begin_object name r = R.Ok tt r1
           /\ R.m_obj_had_left_parenthesis r1
              = false :: R.m_obj_had_left_parenthesis r
           /\ R.m_pos r1 = R.m_pos (R.final (R.skip_space_and_comma r))
           /\ R.m_str r1 = R.m_str r
           /\ (R.m_obj_count r <> 0%Z ->
               exists r2,
                 R.end_object r1 = R.Ok tt r2
                 /\ R.m_pos r2 = R.m_pos r1
                 /\ R.m_obj_had_left_parenthesis r2
                    = R.m_obj_had_left_parenthesis r
                 /\ R.m_obj_count r2 = R.m_obj_count r)
           /\ (R.m_obj_count r = 0%Z -> separators (R.remaining r1) ->
               exists r2,
                 R.end_object r1 = R.Ok tt r2
                 /\ R.m_pos r2 = length (R.m_str r)
                 /\ R.m_obj_had_left_parenthesis r2
                    = R.m_obj_had_left_parenthesis r
                 /\ R.m_obj_count r2 = 0%Z))
  /\ (name <> [] ->
      Forall (fun c => R.is_delimiter c = false) name ->
      exists r',
        R.bind R.seek_object
          (fun n => R.bind (R.begin_object n)
                      (fun _ => R.bind R.end_object (fun _ => R.ret n)))
          (R.init (W.out (W.end_object (W.begin_object name W.init))))
        = R.Ok name r'
        /\ R.m_pos r' = length name
        /\ R.m_obj_had_left_parenthesis r' = []
        /\ R.m_obj_count r' = 0%Z).
Proof.
  split; [intros w; apply writer_void_object|].
  split; [reflexivity|].
  split; [apply reader_void_object|].
  intros Hne Hall.
  change (W.out (W.end_object (W.begin_object name W.init))) with name.
  destruct (seek_object_name name Hne Hall) as (r0 & Hseek & Hpos & Hstr & Hcnt & Hst).
  unfold R.bind at 1. rewrite Hseek.
  assert (Hrem0 : R.remaining r0 = []).
  { unfold R.remaining. rewrite Hpos, Hstr. apply skipn_all. }
  assert (Hb0 : in_bounds r0) by (unfold in_bounds; rewrite Hpos, Hstr; lia).
  destruct (reader_void_object name r0 Hb0) as (r1 & Hbegin & _ & Hp1 & Hs1 & _ & Hend).
  { rewrite Hcnt. unfold R.size_max. lia. }
  { rewrite skip_space_and_comma_spec. cbn [R.final].
    rewrite cur_hd, remaining_skipped, Hrem0. simpl. discriminate. }
  unfold R.bind at 1. rewrite Hbegin.
  destruct (Hend Hcnt) as (r2 & Hend2 & Hp2 & Hst2 & Hc2).
  { rewrite skip_space_and_comma_spec in Hp1. cbn [R.final] in Hp1.
    unfold R.remaining. rewrite Hp1, Hs1.
    unfold skipped; simpl. rewrite Hrem0. simpl.
    rewrite Nat.add_0_r, Hpos, Hstr, skipn_all. constructor. }
  unfold R.bind, R.ret. rewrite Hend2.
  exists r2. rewrite Hp2, Hst2, Hc2, Hstr, Hst. auto.
Qed.

(** The text of a void object named [Foo] is read back to its end. *)
Lemma void_object_witness :
  exists r',
    R.bind R.seek_object
      (fun n => R.bind (R.begin_object n)
                  (fun _ => R.bind R.end_object (fun _ => R.ret n)))
      (R.init (W.out (W.end_object (W.begin_object #"Foo" W.init))))
    = R.Ok #"Foo" r'
    /\ R.m_pos r' = length #"Foo"
    /\ R.m_obj_had_left_parenthesis r' = []
    /\ R.m_obj_count r' = 0%Z.
Proof.
  apply (proj2 (proj2 (proj2 (void_object #"Foo")))).
  - discriminate.
  - repeat constructor.
Defined.

(** ** Values and sequences *)

Lemma integrity_check_ok (r : R.t) (st : list bool) :
  R.m_obj_had_left_parenthesis r = true :: st ->
  R.integrity_check r = R.Ok tt r.
Proof.
  intros H. unfold R.integrity_check, R.bind, R.gets. rewrite H. reflexivity.
Qed.

Lemma integrity_check_inv (r : R.t) :
  match R.integrity_check r with
  | R.Ok _ r' => r' = r /\ exists st, R.m_obj_had_left_parenthesis r = true :: st
  | R.Throw _ r' => r' = r
  end.
Proof.
  unfold R.integrity_check, R.bind, R.gets.
  destruct (R.m_obj_had_left_parenthesis r) as [|[] st]; simpl; eauto.
Qed.

Lemma begin_sequence_spec (r : R.t) (st : list bool) :
  R.m_obj_had_left_parenthesis r = true :: st ->
  cur (skipped r) = "{"%char ->
  R.begin_sequence r
  = let r' := R.set_pos (R.m_pos (skipped r) + 1) (R.log_deref (skipped r)) in
    R.Ok (code_sequence_count (R.remaining r')) r'.
Proof.
  intros Hst Hcur. unfold R.begin_sequence, R.bind at 1.
  rewrite (integrity_check_ok r st Hst).
  unfold R.bind at 1. rewrite consume_spec. cbv zeta.
  rewrite Hcur. reflexivity.
Qed.

Lemma eqb_false_sym (a b : ascii) : Ascii.eqb a b = false -> Ascii.eqb b a = false.
Proof. rewrite (Ascii.eqb_sym a b). auto. Qed.

(** Where no sequence is opened before the next closing brace, that brace is
    the matching one. *)
Lemma matching_brace_flat (rest : list ascii) :
  Forall (fun c => c <> "{"%char) (firstn (find "}" rest) rest) ->
  matching_brace 0 rest = find "}" rest.
Proof.
  unfold find. induction rest as [|c rest IH]; [reflexivity|].
  cbn [find_if matching_brace]. rewrite (Ascii.eqb_sym "}" c).
  destruct (Ascii.eqb c "}") eqn:Ec; [reflexivity|].
  cbn [firstn]. intros H. inversion H as [|? ? Hc Hrest]; subst.
  apply Ascii.eqb_neq in Hc. rewrite Hc. f_equal. apply IH. exact Hrest.
Qed.

(** C3, as the specification states it, fails: in the text
    [Foo ( { { 1 }, { 2 } } )] the sequence opened at offset 6 has one comma
    before its matching brace, which makes a count of 2, but
    [begin_sequence] stops at the first closing brace and returns 1. *)
Lemma begin_sequence_not_matching_brace :
  (exists r',
      R.begin_sequence (in_object #"Foo ( { { 1 }, { 2 } } )" 5) = R.Ok 1%Z r'
      /\ spec_sequence_count (R.remaining r') = 2%Z)
  /\ (forall r',
         R.begin_sequence (in_object #"Foo ( { { 1 }, { 2 } } )" 5)
         <> R.Ok (spec_sequence_count (R.remaining r')) r').
Proof.
  assert (E : exists r1,
             R.begin_sequence (in_object #"Foo ( { { 1 }, { 2 } } )" 5)
             = R.Ok 1%Z r1
             /\ spec_sequence_count (R.remaining r1) = 2%Z)
    by (eexists; split; vm_compute; reflexivity).
  split; [exact E|].
  destruct E as (r1 & E1 & E2). intros r' H. rewrite E1 in H.
  injection H as Hn Hr. subst r'. rewrite E2 in Hn. discriminate.
Qed.

(** C3 (amended): with the cursor before an opening brace inside an object
    that has fields, [begin_sequence] reads the brace and returns the number
    of commas between it and the next closing brace (the end of the input if
    there is none), plus one.  That closing brace is the matching one when
    no brace is opened in between, and then the count is the one the
    specification words.  [{ 1, 2, 3 }] yields 3 and [{ }] yields 1. *)
Theorem begin_sequence_counts_to_next_brace (r : R.t) (st : list bool) :
  R.m_obj_had_left_parenthesis r = true :: st ->
  cur (R.final (R.skip_space_and_comma r)) = "{"%char ->
  (exists r',
      R.begin_sequence r = R.Ok (code_sequence_count (R.remaining r')) r'
      /\ R.m_pos r' = R.m_pos (R.final (R.skip_space_and_comma r)) + 1
      /\ R.m_str r' = R.m_str r
      /\ R.m_obj_had_left_parenthesis r' = R.m_obj_had_left_parenthesis r
      /\ R.m_obj_count r' = R.m_obj_count r
      /\ (Forall (fun c => c <> "{"%char)
            (firstn (find "}" (R.remaining r')) (R.remaining r')) ->
          code_sequence_count (R.remaining r')
          = spec_sequence_count (R.remaining r')))
  /\ (exists r',
         R.begin_sequence (in_object #"Foo ( { 1, 2, 3 } )" 5) = R.Ok 3%Z r')
  /\ (exists r',
         R.begin_sequence (in_object #"Foo ( { } )" 5) = R.Ok 1%Z r').
Proof.
  rewrite skip_space_and_comma_spec. cbn [R.final]. intros Hst Hcur.
  split; [|split; eexists; vm_compute; reflexivity].
  rewrite (begin_sequence_spec r st Hst Hcur). cbv zeta.
  eexists. split; [reflexivity|]. repeat (split; [reflexivity|]).
  intros Hflat. unfold code_sequence_count, spec_sequence_count.
  rewrite (matching_brace_flat _ Hflat). reflexivity.
Qed.

Lemma begin_sequence_counts_to_next_brace_witness :
  exists r',
    R.begin_sequence (in_object #"Foo ( { a, b } )" 5)
    = R.Ok (code_sequence_count (R.remaining r')) r'
    /\ R.m_pos r' = 7.
Proof.
  destruct (begin_sequence_counts_to_next_brace
              (in_object #"Foo ( { a, b } )" 5) [])
    as [(r' & H1 & H2 & _) _].
  - reflexivity.
  - vm_compute. reflexivity.
  - exists r'. split; [exact H1|]. vm_compute in H2. exact H2.
Defined.

(** [read_value] for a tag other than [pt_u8string], inside an object with
    fields. *)
Lemma read_value_other_spec extract (tag : primitive_type) (r : R.t)
    (st : list bool) :
  is_u8string tag = false ->
  R.m_obj_had_left_parenthesis r = true :: st ->
  R.read_value extract tag r
  = let r1 := skipped r in
    let n := find_if R.find_if_cond (R.remaining r1) in
    if Nat.eqb (R.m_pos r1 + n) (length (R.m_str r1)) then
      R.Throw (R.logic_error #"malformed string (unterminated value)") r1
    else
      let substr := range (R.m_str r1) (R.m_pos r1) (R.m_pos r1 + n) in
      R.Ok (R.from_string extract substr (primitive_variant_of tag))
        (R.set_pos (R.m_pos r1 + length substr) r1).
Proof.
  intros Htag Hst. unfold R.read_value, R.bind at 1.
  rewrite (integrity_check_ok r st Hst).
  unfold R.bind at 1. rewrite skip_space_and_comma_spec. rewrite Htag.
  unfold R.bind at 1. unfold R.gets at 1.
  unfold R.bind at 1. unfold R.gets at 1. cbv zeta.
  destruct (Nat.eqb _ _); reflexivity.
Qed.

(** [read_value] for [pt_u8string], inside an object with fields. *)
Lemma read_value_string_spec extract (r : R.t) (st : list bool) :
  R.m_obj_had_left_parenthesis r = true :: st ->
  R.read_value extract pt_u8string r
  = let r1 := skipped r in
    let quoted := Ascii.eqb (cur r1) dquote in
    let r2 := if quoted then R.set_pos (R.m_pos r1 + 1) (R.log_deref r1)
              else R.log_deref r1 in
    let n := if quoted then R.find_if_str dquote (R.remaining r2)
             else find_if R.find_if_cond (R.remaining r2) in
    if Nat.eqb (R.m_pos r2 + n) (length (R.m_str r2)) then
      R.Throw (R.logic_error #"malformed string (unterminated value)") r2
    else
      let substr := range (R.m_str r2) (R.m_pos r2) (R.m_pos r2 + n) in
      let r3 := R.set_pos (R.m_pos r2 + length substr) r2 in
      if negb (Ascii.eqb (cur r3) dquote) then
        R.Throw
          (R.logic_error (#"malformed string, expected '" ++ [dquote]
                          ++ #"' found '" ++ [cur r3] ++ #"'"))
          (R.log_deref (R.log_deref r3))
      else
        R.Ok (pv_u8string (R.unescape substr))
          (R.set_pos (R.m_pos r3 + 1) (R.log_deref r3)).
Proof.
  intros Hst. unfold R.read_value, R.bind at 1.
  rewrite (integrity_check_ok r st Hst).
  unfold R.bind at 1. rewrite skip_space_and_comma_spec.
  cbn [is_u8string]. cbv zeta.
  unfold R.bind at 1. unfold R.bind at 1. unfold R.deref at 1.
  fold (cur (skipped r)).
  destruct (Ascii.eqb (cur (skipped r)) dquote).
  - unfold R.bind at 1. unfold R.advance at 1, R.modify at 1.
    unfold R.gets at 1. unfold R.bind at 1. unfold R.gets at 1.
    destruct (Nat.eqb _ _); [reflexivity|].
    unfold R.bind at 1. unfold R.gets at 1.
    unfold R.bind at 1. unfold R.advance at 1, R.modify at 1.
    unfold R.bind at 1. unfold R.bind at 1. unfold R.deref at 1.
    match goal with |- context [nth (R.m_pos ?x) (R.m_str ?x) NUL] =>
      fold (cur x) end.
    destruct (negb _); reflexivity.
  - unfold R.gets at 1. unfold R.bind at 1. unfold R.gets at 1.
    destruct (Nat.eqb _ _); [reflexivity|].
    unfold R.bind at 1. unfold R.gets at 1.
    unfold R.bind at 1. unfold R.advance at 1, R.modify at 1.
    unfold R.bind at 1. unfold R.bind at 1. unfold R.deref at 1.
    match goal with |- context [nth (R.m_pos ?x) (R.m_str ?x) NUL] =>
      fold (cur x) end.
    destruct (negb _); reflexivity.
Qed.

Lemma nth_remaining (r : R.t) (n : nat) :
  nth n (R.remaining r) NUL = nth (R.m_pos r + n) (R.m_str r) NUL.
Proof.
  unfold R.remaining. rewrite !nth_hd_skipn, skipn_skipn.
  f_equal. f_equal. apply Nat.add_comm.
Qed.

(** The token scan of [read_value] ends at the end of the input iff no
    character of the token is an end of value. *)
Lemma scan_reaches_end (r : R.t) (n : nat) :
  in_bounds r -> n <= length (R.remaining r) ->
  (Nat.eqb (R.m_pos r + n) (length (R.m_str r)) = true
   <-> n = length (R.remaining r)).
Proof.
  unfold in_bounds. rewrite length_remaining, Nat.eqb_eq. lia.
Qed.

(** C6, as the specification states it, fails: with the cursor before the
    bare token [abc] of [Foo ( abc )], [read_value] for the string tag does
    not return the string [abc]; it throws, naming the space behind the
    token as the character found in place of the closing quote. *)
Lemma read_value_bare_string_fails :
  cur (R.final (R.skip_space_and_comma (in_object #"Foo ( abc )" 5)))
  <> dquote
  /\ (exists r',
         R.read_value extract_nothing pt_u8string (in_object #"Foo ( abc )" 5)
         = R.Throw
             (R.logic_error (#"malformed string, expected '" ++ [dquote]
                             ++ #"' found ' '")) r')
  /\ (forall v r',
         R.read_value extract_nothing pt_u8string (in_object #"Foo ( abc )" 5)
         <> R.Ok v r').
Proof.
  split; [vm_compute; discriminate|].
  assert (E : exists r',
             R.read_value extract_nothing pt_u8string
               (in_object #"Foo ( abc )" 5)
             = R.Throw
                 (R.logic_error (#"malformed string, expected '" ++ [dquote]
                                 ++ #"' found ' '")) r')
    by (eexists; vm_compute; reflexivity).
  split; [exact E|].
  destruct E as [r1 E]. intros v r' H. rewrite E in H. discriminate.
Qed.

(** C6 (amended): a string-tagged [read_value] whose next character after
    the separators is not a double quote never returns a value.  Inside an
    object with fields it scans to the next end of value (space, comma,
    right parenthesis or closing brace); if there is none it throws
    "unterminated value"; otherwise it moves the cursor to that character
    and throws because that character is not the closing double quote. *)
Theorem read_value_bare_string_throws extract (r : R.t) (st : list bool) :
  in_bounds r ->
  R.m_obj_had_left_parenthesis r = true :: st ->
  cur (R.final (R.skip_space_and_comma r)) <> dquote ->
  let r1 := R.final (R.skip_space_and_comma r) in
  let n := find_if R.find_if_cond (R.remaining r1) in
  (forall v r', R.read_value extract pt_u8string r <> R.Ok v r')
  /\ (n = length (R.remaining r1) ->
      exists r',
        R.read_value extract pt_u8string r
        = R.Throw (R.logic_error #"malformed string (unterminated value)") r')
  /\ (n < length (R.remaining r1) ->
      exists r',
        R.read_value extract pt_u8string r
        = R.Throw
            (R.logic_error (#"malformed string, expected '" ++ [dquote]
                            ++ #"' found '" ++ [nth n (R.remaining r1) NUL]
                            ++ #"'")) r'
        /\ R.m_pos r' = R.m_pos r1 + n
        /\ R.find_if_cond (nth n (R.remaining r1) NUL) = true).
Proof.
  rewrite skip_space_and_comma_spec. cbn [R.final].
  intros Hb Hst Hcur.
  set (r1 := skipped r) in *.
  set (n := find_if R.find_if_cond (R.remaining r1)).
  rewrite (read_value_string_spec extract r st Hst). cbv zeta. fold r1.
  apply Ascii.eqb_neq in Hcur. rewrite Hcur.
  change (R.remaining (R.log_deref r1)) with (R.remaining r1). fold n.
  change (R.m_pos (R.log_deref r1)) with (R.m_pos r1).
  change (R.m_str (R.log_deref r1)) with (R.m_str r1).
  assert (Hb1 : in_bounds r1) by (apply in_bounds_skipped; exact Hb).
  assert (Hn : n <= length (R.remaining r1)) by apply find_if_le.
  pose proof (scan_reaches_end r1 n Hb1 Hn) as Hend.
  destruct (Nat.eqb (R.m_pos r1 + n) (length (R.m_str r1))) eqn:Eend.
  - assert (n = length (R.remaining r1)) by (apply Hend; reflexivity).
    split; [discriminate|]. split; [eexists; reflexivity|]. lia.
  - assert (Hlt : n < length (R.remaining r1)).
    { destruct (Nat.eq_dec n (length (R.remaining r1))) as [E|E]; [|lia].
      apply Hend in E. discriminate. }
    rewrite range_firstn_remaining. fold (R.remaining r1).
    rewrite length_firstn, Nat.min_l by exact Hn.
    set (r3 := R.set_pos _ _).
    assert (Hcur3 : cur r3 = nth n (R.remaining r1) NUL)
      by (rewrite nth_remaining; reflexivity).
    assert (Hcond : R.find_if_cond (cur r3) = true)
      by (rewrite Hcur3; apply find_if_found; exact Hlt).
    assert (Hq : Ascii.eqb (cur r3) dquote = false).
    { destruct (Ascii.eqb (cur r3) dquote) eqn:E; [|reflexivity].
      apply Ascii.eqb_eq in E. rewrite E in Hcond. discriminate. }
    rewrite Hq. cbn [negb].
    split; [discriminate|]. split; [lia|].
    intros _. eexists. rewrite <- Hcur3. split; [reflexivity|].
    split; [reflexivity|exact Hcond].
Qed.

Lemma read_value_bare_string_throws_witness :
  exists r',
    R.read_value extract_nothing pt_u8string (in_object #"Foo ( 12, 3 )" 5)
    = R.Throw
        (R.logic_error (#"malformed string, expected '" ++ [dquote]
                        ++ #"' found ','")) r'
    /\ R.m_pos r' = 8.
Proof.
  destruct (read_value_bare_string_throws extract_nothing
              (in_object #"Foo ( 12, 3 )" 5) [])
    as (_ & _ & H).
  - unfold in_bounds. simpl. lia.
  - reflexivity.
  - vm_compute. discriminate.
  - destruct H as (r' & H1 & H2 & _).
    + vm_compute. lia.
    + exists r'. split; [exact H1|]. vm_compute in H2. exact H2.
Defined.

Lemma read_value_needs_fields extract (tag : primitive_type) (r : R.t)
    (v : primitive_variant) (r' : R.t) :
  R.read_value extract tag r = R.Ok v r' ->
  exists st, R.m_obj_had_left_parenthesis r = true :: st.
Proof.
  unfold R.read_value, R.bind at 1.
  pose proof (integrity_check_inv r) as H.
  destruct (R.integrity_check r) as [[] r0|e r0]; [|discriminate].
  intros _. tauto.
Qed.

(** C10: for the UTF-16 and the UTF-32 string tag, [read_value] reads one
    token and returns the empty string of that tag, whatever the token is.
    Whenever the call returns, its value is the value-initialised variant of
    the tag, an empty UTF-16 or UTF-32 string.  And it does return inside an
    object with fields when an end of value (space, comma, right parenthesis
    or closing brace) follows the token: the cursor then stands behind the
    token, the characters between the separators and that end of value.
    The writer prints no character for a value of these two tags. *)
Theorem read_value_wide_string_is_empty extract (tag : primitive_type)
    (r : R.t) :
  tag = pt_u16string \/ tag = pt_u32string ->
  (forall v r',
      R.read_value extract tag r = R.Ok v r' ->
      v = primitive_variant_of tag
      /\ (v = pv_u16string [] \/ v = pv_u32string []))
  /\ (forall st,
         in_bounds r ->
         R.m_obj_had_left_parenthesis r = true :: st ->
         let r1 := R.final (R.skip_space_and_comma r) in
         let n := find_if R.find_if_cond (R.remaining r1) in
         n < length (R.remaining r1) ->
         exists r',
           R.read_value extract tag r = R.Ok (primitive_variant_of tag) r'
           /\ R.m_pos r' = R.m_pos r1 + n
           /\ range (R.m_str r) (R.m_pos r1) (R.m_pos r')
              = firstn n (R.remaining r1)
           /\ R.m_str r' = R.m_str r
           /\ R.m_obj_had_left_parenthesis r' = R.m_obj_had_left_parenthesis r
           /\ R.m_obj_count r' = R.m_obj_count r)
  /\ (forall ostream_insert s,
         W.pt_writer ostream_insert (pv_u16string s) = []
         /\ W.pt_writer ostream_insert (pv_u32string s) = []).
Proof.
  intros Htag.
  assert (Hnot : is_u8string tag = false) by (destruct Htag; subst; reflexivity).
  assert (Hfrom : forall s,
             R.from_string extract s (primitive_variant_of tag)
             = primitive_variant_of tag)
    by (destruct Htag; subst; reflexivity).
  split; [|split; [|split; reflexivity]].
  - intros v r' H.
    destruct (read_value_needs_fields extract tag r v r' H) as [st Hst].
    rewrite (read_value_other_spec extract tag r st Hnot Hst) in H.
    cbv zeta in H. destruct (Nat.eqb _ _); [discriminate|].
    rewrite Hfrom in H. injection H as <- _.
    split; [reflexivity|]. destruct Htag; subst; auto.
  - intros st Hb Hst. rewrite skip_space_and_comma_spec. cbn [R.final].
    set (r1 := skipped r). set (n := find_if R.find_if_cond (R.remaining r1)).
    intros Hlt.
    rewrite (read_value_other_spec extract tag r st Hnot Hst). cbv zeta.
    fold r1. fold n.
    assert (Hb1 : in_bounds r1) by (apply in_bounds_skipped; exact Hb).
    assert (Hn : n <= length (R.remaining r1)) by lia.
    pose proof (scan_reaches_end r1 n Hb1 Hn) as Hend.
    destruct (Nat.eqb (R.m_pos r1 + n) (length (R.m_str r1)));
      [assert (n = length (R.remaining r1)) by (apply Hend; reflexivity); lia|].
    rewrite Hfrom, range_firstn_remaining. fold (R.remaining r1).
    rewrite length_firstn, Nat.min_l by exact Hn.
    eexists. split; [reflexivity|]. split; [reflexivity|].
    split; [|repeat split].
    simpl R.m_pos. change (R.m_str r) with (R.m_str r1).
    apply range_firstn_remaining.
Qed.

Lemma read_value_wide_string_is_empty_witness :
  exists r',
    R.read_value extract_nothing pt_u16string (in_object #"Foo ( abc )" 5)
    = R.Ok (pv_u16string []) r'
    /\ R.m_pos r' = 9.
Proof.
  destruct (read_value_wide_string_is_empty extract_nothing pt_u16string
              (in_object #"Foo ( abc )" 5) (or_introl eq_refl))
    as (_ & H & _).
  destruct (H [] ltac:(unfold in_bounds; simpl; lia) eq_refl)
    as (r' & H1 & H2 & _).
  - vm_compute. lia.
  - exists r'. split; [exact H1|]. vm_compute in H2. exact H2.
Defined.

(** ** Where the reader dereferences its cursor *)

Create HintDb bounded.

Lemma bounded_log_deref text r : bounded text r -> bounded text (R.log_deref r).
Proof.
  intros (Hs & Hp & Hd). repeat split; simpl; auto.
Qed.

Lemma bounded_set_pos text r p :
  bounded text r -> p <= length text -> bounded text (R.set_pos p r).
Proof. intros (Hs & Hp & Hd) Hle. repeat split; simpl; auto. Qed.

Lemma bounded_set_stack text r st :
  bounded text r -> bounded text (R.set_stack st r).
Proof. intros (Hs & Hp & Hd). repeat split; simpl; auto. Qed.

Lemma bounded_set_obj_count text r n :
  bounded text r -> bounded text (R.set_obj_count n r).
Proof. intros (Hs & Hp & Hd). repeat split; simpl; auto. Qed.

Lemma bounded_in_bounds text r : bounded text r -> in_bounds r.
Proof. intros (Hs & Hp & Hd). unfold in_bounds. rewrite Hs. exact Hp. Qed.

Lemma bounded_skipped text r : bounded text r -> bounded text (skipped r).
Proof.
  intros H. pose proof (in_bounds_skipped r (bounded_in_bounds text r H)) as Hb.
  destruct H as (Hs & Hp & Hd). unfold in_bounds in Hb.
  change (R.m_str (skipped r)) with (R.m_str r) in Hb. rewrite Hs in Hb.
  repeat split; auto.
  unfold skipped in *. cbn [R.derefs R.m_pos] in *.
  apply Forall_app. split; [|exact Hd].
  apply Forall_forall. intros p Hin. rewrite <- in_rev in Hin.
  apply in_seq in Hin. lia.
Qed.

(** A successful comparison of [*m_pos] with a character other than the
    terminator shows that the cursor is inside the text. *)
Lemma bounded_step text r c :
  bounded text r -> cur r = c -> c <> NUL ->
  bounded text (R.set_pos (R.m_pos r + 1) (R.log_deref r)).
Proof.
  intros H Hc Hn. apply bounded_set_pos; [apply bounded_log_deref; exact H|].
  destruct H as (Hs & _ & _). rewrite <- Hs.
  change (R.m_pos (R.log_deref r)) with (R.m_pos r).
  rewrite <- Hc in Hn. apply cur_not_NUL_in_string in Hn. lia.
Qed.

#[local] Hint Resolve bounded_log_deref bounded_set_stack bounded_set_obj_count
  bounded_skipped : bounded.

Lemma preserves_ret {A} (a : A) : preserves (R.ret a).
Proof. intros text r H. exact H. Qed.

Lemma preserves_throw {A} (e : R.exn) : preserves (@R.throw A e).
Proof. intros text r H. exact H. Qed.

Lemma preserves_gets {A} (f : R.t -> A) : preserves (R.gets f).
Proof. intros text r H. exact H. Qed.

Lemma preserves_bind {A B} (m : R.M A) (k : A -> R.M B) :
  preserves m -> (forall a, preserves (k a)) -> preserves (R.bind m k).
Proof.
  intros Hm Hk text r H. unfold R.bind. specialize (Hm text r H).
  destruct (m r) as [a r'|e r']; simpl in *; [apply Hk|]; assumption.
Qed.

Lemma preserves_skip_space_and_comma : preserves R.skip_space_and_comma.
Proof.
  intros text r H. rewrite skip_space_and_comma_spec. simpl.
  auto with bounded.
Qed.

Lemma preserves_consume (c : ascii) : c <> NUL -> preserves (R.consume c).
Proof.
  intros Hc text r H. rewrite consume_spec. cbv zeta.
  destruct (Ascii.eqb (cur (skipped r)) c) eqn:E; simpl.
  - apply Ascii.eqb_eq in E. apply bounded_step with (c := c); auto with bounded.
  - auto with bounded.
Qed.

Lemma preserves_try_consume (c : ascii) : c <> NUL -> preserves (R.try_consume c).
Proof.
  intros Hc text r H. rewrite try_consume_spec. cbv zeta.
  destruct (Ascii.eqb (cur (skipped r)) c) eqn:E; simpl.
  - apply Ascii.eqb_eq in E. apply bounded_step with (c := c); auto with bounded.
  - auto with bounded.
Qed.

Lemma preserves_integrity_check : preserves R.integrity_check.
Proof.
  intros text r H. pose proof (integrity_check_inv r) as Hi.
  destruct (R.integrity_check r) as [[] r'|e r']; simpl.
  - destruct Hi as [-> _]. exact H.
  - subst r'. exact H.
Qed.

Lemma scan_within text r (n : nat) :
  bounded text r -> n <= length (R.remaining r) -> R.m_pos r + n <= length text.
Proof.
  intros (Hs & Hp & _). rewrite length_remaining, Hs. lia.
Qed.

Lemma preserves_seek_object : preserves R.seek_object.
Proof.
  intros text r H. rewrite seek_object_spec. cbv zeta.
  destruct (Nat.eqb _ 0); cbn [R.final]; [auto with bounded|].
  apply bounded_set_pos; [auto with bounded|].
  apply scan_within; [auto with bounded | apply find_if_le].
Qed.

Lemma preserves_peek_object : preserves R.peek_object.
Proof.
  intros text r H. rewrite peek_object_spec. cbv zeta.
  destruct (Nat.eqb _ 0); cbn [R.final]; [auto with bounded|].
  apply bounded_set_pos; [auto with bounded|].
  apply (bounded_skipped text r H).
Qed.

Lemma preserves_begin_object (name : list ascii) : preserves (R.begin_object name).
Proof.
  intros text r H. rewrite begin_object_spec. cbv zeta.
  set (r2 := skipped (skipped _)).
  assert (H2 : bounded text r2) by (unfold r2; auto with bounded).
  destruct (Ascii.eqb (cur r2) "(") eqn:E; cbn [R.final].
  - apply bounded_set_stack. apply Ascii.eqb_eq in E.
    apply bounded_step with (c := "("%char); [assumption..|discriminate].
  - auto with bounded.
Qed.

Lemma preserves_modify (f : R.t -> R.t) :
  (forall text r, bounded text r -> bounded text (f r)) ->
  preserves (R.modify f).
Proof. intros Hf text r H. simpl. apply Hf. exact H. Qed.

Lemma preserves_throw_malformed {A} (msg : list ascii) :
  preserves (@R.throw_malformed A msg).
Proof. apply preserves_throw. Qed.

Ltac preserve :=
  repeat match goal with
    | |- preserves (R.ret _) => apply preserves_ret
    | |- preserves (R.throw_malformed _) => apply preserves_throw_malformed
    | |- preserves (R.throw _) => apply preserves_throw
    | |- preserves (R.gets _) => apply preserves_gets
    | |- preserves R.skip_space_and_comma => apply preserves_skip_space_and_comma
    | |- preserves R.integrity_check => apply preserves_integrity_check
    | |- preserves (R.consume _) => apply preserves_consume; discriminate
    | |- preserves (R.try_consume _) => apply preserves_try_consume; discriminate
    | |- preserves (R.modify _) =>
        apply preserves_modify; intros; auto with bounded
    | |- preserves (R.bind _ _) => apply preserves_bind; [|intros ?]
    | |- preserves (if ?b then _ else _) => destruct b
    | |- preserves (match ?x with _ => _ end) => destruct x
    end.

Lemma preserves_end_object : preserves R.end_object.
Proof. unfold R.end_object. preserve. Qed.

Lemma preserves_begin_sequence : preserves R.begin_sequence.
Proof. unfold R.begin_sequence. preserve. Qed.

Lemma preserves_end_sequence : preserves R.end_sequence.
Proof. unfold R.end_sequence. preserve. Qed.

Lemma find_if_str_le (last_char : ascii) (l : list ascii) :
  R.find_if_str last_char l <= length l.
Proof.
  revert last_char. induction l as [|c l IH]; intros last_char; simpl; [lia|].
  destruct (_ && _); [lia|]. specialize (IH c). lia.
Qed.

Lemma length_range_remaining (r : R.t) (n : nat) :
  length (range (R.m_str r) (R.m_pos r) (R.m_pos r + n))
  <= length (R.remaining r).
Proof.
  rewrite range_firstn_remaining. fold (R.remaining r).
  rewrite length_firstn. lia.
Qed.

Lemma preserves_read_value extract (tag : primitive_type) :
  preserves (R.read_value extract tag).
Proof.
  intros text r H.
  destruct (R.m_obj_had_left_parenthesis r) as [|[] st] eqn:Hst.
  - unfold R.read_value, R.bind at 1, R.integrity_check, R.bind, R.gets.
    rewrite Hst. exact H.
  - assert (H1 : bounded text (skipped r)) by auto with bounded.
    destruct (is_u8string tag) eqn:Htag.
    + destruct tag; try discriminate.
      rewrite (read_value_string_spec extract r st Hst). cbv zeta.
      set (r1 := skipped r) in *.
      set (quoted := Ascii.eqb (cur r1) dquote).
      set (r2 := if quoted then _ else _).
      set (n := if quoted then _ else _).
      assert (H2 : bounded text r2).
      { unfold r2, quoted. destruct (Ascii.eqb (cur r1) dquote) eqn:E.
        - apply Ascii.eqb_eq in E.
          apply bounded_step with (c := dquote); [assumption..|discriminate].
        - auto with bounded. }
      destruct (Nat.eqb _ _); cbn [R.final]; [exact H2|].
      set (substr := range _ _ _).
      set (r3 := R.set_pos _ r2).
      assert (H3 : bounded text r3).
      { apply bounded_set_pos; [exact H2|].
        apply scan_within; [exact H2|]. apply length_range_remaining. }
      destruct (Ascii.eqb (cur r3) dquote) eqn:E; cbn [negb R.final].
      * apply Ascii.eqb_eq in E.
        apply bounded_step with (c := dquote); [assumption..|discriminate].
      * auto with bounded.
    + rewrite (read_value_other_spec extract tag r st Htag Hst). cbv zeta.
      destruct (Nat.eqb _ _); cbn [R.final]; [exact H1|].
      apply bounded_set_pos; [exact H1|].
      apply scan_within; [exact H1|]. apply length_range_remaining.
  - unfold R.read_value, R.bind at 1, R.integrity_check, R.bind, R.gets.
    rewrite Hst. exact H.
Qed.

Lemma preserves_read_values extract (tags : list primitive_type) :
  preserves (R.read_values extract tags).
Proof.
  induction tags as [|tag tags IH]; simpl; [apply preserves_ret|].
  apply preserves_bind; [apply preserves_read_value|intros v].
  apply preserves_bind; [exact IH|intros vs]. apply preserves_ret.
Qed.

Lemma preserves_read_tuple extract (tags : list primitive_type) :
  preserves (R.read_tuple extract tags).
Proof.
  unfold R.read_tuple.
  apply preserves_bind; [apply preserves_integrity_check|intros _].
  apply preserves_bind; [apply preserves_consume; discriminate|intros _].
  apply preserves_bind; [apply preserves_read_values|intros storage].
  preserve.
Qed.

Lemma preserves_run extract (c : R.call) : preserves (R.run extract c).
Proof.
  destruct c; simpl;
    first [ apply preserves_begin_object
          | apply preserves_end_object
          | apply preserves_end_sequence
          | apply preserves_bind; [|intros ?; apply preserves_ret] ].
  - apply preserves_seek_object.
  - apply preserves_peek_object.
  - apply preserves_begin_sequence.
  - apply preserves_read_value.
  - apply preserves_read_tuple.
Qed.

Lemma preserves_run_all extract (cs : list R.call) :
  preserves (R.run_all extract cs).
Proof.
  induction cs as [|c cs IH]; simpl; [apply preserves_ret|].
  apply preserves_bind; [apply preserves_run|intros _; exact IH].
Qed.

Lemma bounded_init (text : list ascii) : bounded text (R.init text).
Proof. repeat split; simpl; [lia|constructor]. Qed.

(** C9, as the specification states it, fails: reading the text [Foo] of a
    void object with [seek_object], [begin_object], [end_object] succeeds,
    and dereferences the cursor at offset 3, the end of the input.  So does
    reading [Foo ( x )], whose outermost object closes exactly at the end of
    the input: the [skip_space_and_comma] of [end_object] dereferences the
    cursor at offset 9. *)
Lemma reader_dereferences_end_of_input :
  (exists r',
      R.run_all extract_nothing
        [R.call_seek_object; R.call_begin_object #"Foo"; R.call_end_object]
        (R.init #"Foo")
      = R.Ok tt r'
      /\ In (length (R.m_str r')) (R.derefs r')
      /\ ~ Forall (fun p => p < length (R.m_str r')) (R.derefs r'))
  /\ (exists r',
         R.run_all extract_nothing
           [R.call_seek_object; R.call_begin_object #"Foo";
            R.call_read_value pt_u16string; R.call_end_object]
           (R.init #"Foo ( x )")
         = R.Ok tt r'
         /\ hd 0 (R.derefs r') = length (R.m_str r')
         /\ ~ Forall (fun p => p < length (R.m_str r')) (R.derefs r')).
Proof.
  split; eexists; (split; [vm_compute; reflexivity|]); split.
  - simpl. auto.
  - intros H. inversion H; subst. simpl in *. lia.
  - reflexivity.
  - intros H. inversion H; subst. simpl in *. lia.
Qed.

(** C9 (amended): whatever requests the reader serves on whatever text, and
    whether the run ends normally or with an exception, every dereference
    of the cursor is at an offset inside the text or at its end, where the
    terminator of the string is read; none is behind the end, and the
    cursor itself never passes the end. *)
Theorem reader_dereferences_up_to_end extract (text : list ascii)
    (calls : list R.call) :
  let r' := R.final (R.run_all extract calls (R.init text)) in
  R.m_str r' = text
  /\ R.m_pos r' <= length text
  /\ Forall (fun p => p <= length text) (R.derefs r').
Proof.
  exact (preserves_run_all extract calls text (R.init text) (bounded_init text)).
Qed.

(** ** Strings: what is written and what is read back *)

Lemma write_string_escape (x : list ascii) :
  W.write_string x = dquote :: escape x ++ [dquote].
Proof. reflexivity. Qed.

Lemma escape_cons (c : ascii) (x : list ascii) :
  escape (c :: x)
  = (if Ascii.eqb c dquote then [backslash; dquote] else [c]) ++ escape x.
Proof. reflexivity. Qed.

Lemma escape_app (a b : list ascii) : escape (a ++ b) = escape a ++ escape b.
Proof. unfold escape. apply flat_map_app. Qed.

Lemma escape_no_quote (a : list ascii) :
  Forall (fun c => c <> dquote) a -> escape a = a.
Proof.
  induction 1 as [|c a Hc _ IH]; [reflexivity|].
  rewrite escape_cons, IH. apply Ascii.eqb_neq in Hc. rewrite Hc. reflexivity.
Qed.

Lemma last_default (a d d' : ascii) (x : list ascii) :
  last (a :: x) d = last (a :: x) d'.
Proof.
  revert a. induction x as [|b x IH]; intros a; [reflexivity|].
  change (last (a :: b :: x) d) with (last (b :: x) d).
  change (last (a :: b :: x) d') with (last (b :: x) d').
  apply IH.
Qed.

Lemma last_cons (c d : ascii) (x : list ascii) : last (c :: x) d = last x c.
Proof.
  destruct x as [|a x]; [reflexivity|].
  change (last (c :: a :: x) d) with (last (a :: x) d). apply last_default.
Qed.

(** The scan for the closing quote passes over an escaped text and stops at
    the quote behind it, unless the character before that quote is a
    backslash. *)
Lemma find_if_str_escape (x rest : list ascii) :
  forall last_char,
    last x last_char <> backslash ->
    R.find_if_str last_char (escape x ++ dquote :: rest) = length (escape x).
Proof.
  induction x as [|c x IH]; intros last_char Hlast.
  - simpl in *. apply Ascii.eqb_neq in Hlast. rewrite Hlast. reflexivity.
  - rewrite last_cons in Hlast. rewrite escape_cons.
    destruct (Ascii.eqb c dquote) eqn:Ec.
    + apply Ascii.eqb_eq in Ec. subst c.
      cbn [app R.find_if_str length].
      change (Ascii.eqb backslash dquote) with false.
      change (Ascii.eqb backslash backslash) with true.
      cbn [andb negb]. rewrite andb_false_r.
      rewrite (IH dquote Hlast). reflexivity.
    + cbn [app R.find_if_str length]. rewrite Ec. cbn [andb].
      rewrite (IH c Hlast). reflexivity.
Qed.

Lemma find_if_escaped_none (a : list ascii) :
  forall last_char,
    Forall (fun c => c <> dquote) a ->
    R.find_if_escaped last_char a = length a.
Proof.
  induction a as [|c a IH]; intros last_char H; [reflexivity|].
  inversion H as [|? ? Hc Ha]; subst. apply Ascii.eqb_neq in Hc.
  cbn [R.find_if_escaped length]. rewrite Hc. cbn [andb].
  rewrite (IH c Ha). reflexivity.
Qed.

Lemma find_if_escaped_first (a tl : list ascii) :
  forall last_char,
    Forall (fun c => c <> dquote) a ->
    R.find_if_escaped last_char (a ++ backslash :: dquote :: tl) = length a + 1.
Proof.
  induction a as [|c a IH]; intros last_char H.
  - reflexivity.
  - inversion H as [|? ? Hc Ha]; subst. apply Ascii.eqb_neq in Hc.
    cbn [app R.find_if_escaped length]. rewrite Hc. cbn [andb].
    rewrite (IH c Ha). reflexivity.
Qed.

(** A text has no quote, or a first one. *)
Lemma first_quote (x : list ascii) :
  Forall (fun c => c <> dquote) x
  \/ exists a b, x = a ++ dquote :: b /\ Forall (fun c => c <> dquote) a.
Proof.
  induction x as [|c x IH]; [left; constructor|].
  destruct (Ascii.eqb_spec c dquote) as [->|Hc].
  - right. exists [], x. split; [reflexivity|constructor].
  - destruct IH as [IH|(a & b & -> & Ha)].
    + left. constructor; assumption.
    + right. exists (c :: a), b. split; [reflexivity|]. constructor; assumption.
Qed.

Lemma skipn_length_app (p l : list ascii) : skipn (length p) (p ++ l) = l.
Proof. rewrite skipn_app, skipn_all, Nat.sub_diag. reflexivity. Qed.

Lemma range_middle (p a l : list ascii) :
  range (p ++ a ++ l) (length p) (length p + length a) = a.
Proof.
  rewrite range_firstn_remaining, skipn_length_app.
  rewrite firstn_app, firstn_all, Nat.sub_diag. simpl. apply app_nil_r.
Qed.

(** The replacement loop on an escaped text: started at the offset where the
    escaped [post] begins, it appends to [tmp] the part [head] of [post] up
    to its last quote, and stops with [sbegin] behind the escaped [head]. *)
Lemma replace_loop_escape (fuel : nat) :
  forall (post p : list ascii) (last_char : ascii) (tmp : list ascii),
    length post < fuel ->
    exists head tl,
      post = head ++ tl
      /\ Forall (fun c => c <> dquote) tl
      /\ R.replace_loop fuel (p ++ escape post) last_char (length p) tmp
         = (tmp ++ head, length p + length (escape head)).
Proof.
  induction fuel as [|fuel IH]; intros post p last_char tmp Hfuel; [lia|].
  cbn [R.replace_loop]. rewrite skipn_length_app.
  destruct (first_quote post) as [Hno|(a & b & -> & Ha)].
  - exists [], post. split; [reflexivity|]. split; [exact Hno|].
    rewrite (escape_no_quote post Hno).
    rewrite (find_if_escaped_none post last_char Hno).
    rewrite length_app, Nat.eqb_refl, app_nil_r. simpl. rewrite Nat.add_0_r.
    reflexivity.
  - rewrite escape_app, (escape_no_quote a Ha), escape_cons, Ascii.eqb_refl.
    cbn [app].
    rewrite (find_if_escaped_first a (escape b) last_char Ha).
    replace (Nat.eqb (length p + (length a + 1))
               (length (p ++ a ++ backslash :: dquote :: escape b)))
      with false
      by (symmetry; apply Nat.eqb_neq; rewrite !length_app; simpl; lia).
    replace (length p + (length a + 1) - 1) with (length p + length a) by lia.
    rewrite range_middle.
    destruct (IH b (p ++ a ++ [backslash; dquote]) backslash
                (tmp ++ a ++ [dquote]))
      as (head & tl & -> & Htl & Hloop).
    { rewrite length_app in Hfuel. simpl in Hfuel. lia. }
    exists (a ++ dquote :: head), tl.
    split; [rewrite <- app_assoc; reflexivity|]. split; [exact Htl|].
    replace (p ++ a ++ backslash :: dquote :: escape (head ++ tl))
      with ((p ++ a ++ [backslash; dquote]) ++ escape (head ++ tl))
      by (rewrite <- !app_assoc; reflexivity).
    replace (length p + length a + 2)
      with (length (p ++ a ++ [backslash; dquote]))
      by (rewrite !length_app; simpl; lia).
    rewrite Hloop. f_equal.
    + rewrite <- !app_assoc. reflexivity.
    + rewrite escape_app, (escape_no_quote a Ha), escape_cons, Ascii.eqb_refl.
      rewrite !length_app. simpl. lia.
Qed.

(** Unescaping undoes escaping. *)
Lemma unescape_escape (x : list ascii) : R.unescape (escape x) = x.
Proof.
  unfold R.unescape.
  destruct (replace_loop_escape (S (length (escape x))) x [] " "%char [])
    as (head & tl & Hx & Htl & Hloop).
  { assert (length x <= length (escape x)); [|lia].
    clear. induction x as [|c x IH]; [simpl; lia|].
    rewrite escape_cons, length_app. destruct (Ascii.eqb c dquote); simpl; lia. }
  simpl app in Hloop. change (length (@nil ascii)) with 0 in Hloop.
  rewrite Hloop.
  destruct head as [|h head].
  - simpl. simpl in Hx. subst tl. rewrite (escape_no_quote x Htl).
    destruct x; reflexivity.
  - assert (Hne : Nat.eqb (0 + length (escape (h :: head))) 0 = false).
    { apply Nat.eqb_neq. rewrite escape_cons, length_app.
      destruct (Ascii.eqb h dquote); simpl; lia. }
    rewrite Hne. cbn [negb].
    assert (Hrange : range (escape x) (0 + length (escape (h :: head)))
                       (length (escape x)) = tl).
    { rewrite Hx, escape_app, (escape_no_quote tl Htl).
      unfold range. rewrite Nat.add_0_l, skipn_length_app.
      apply firstn_all2. rewrite length_app. lia. }
    rewrite Hrange. rewrite Hx. reflexivity.
Qed.

Lemma remaining_shift (r r' : R.t) (k : nat) :
  R.m_str r' = R.m_str r -> R.m_pos r' = R.m_pos r + k ->
  R.remaining r' = skipn k (R.remaining r).
Proof.
  unfold R.remaining. intros -> ->. rewrite skipn_skipn. f_equal. lia.
Qed.

(** Round trip of a string that does not end in a backslash: inside an
    object with fields, [read_value] with the string tag reads what
    [pt_writer] has written for [x], returns [x] and leaves the cursor
    behind the closing quote. *)
Lemma read_value_written_string extract (x rest : list ascii) (r : R.t)
    (st : list bool) :
  R.m_obj_had_left_parenthesis r = true :: st ->
  last x NUL <> backslash ->
  R.remaining (R.final (R.skip_space_and_comma r)) = W.write_string x ++ rest ->
  exists r',
    R.read_value extract pt_u8string r = R.Ok (pv_u8string x) r'
    /\ R.remaining r' = rest
    /\ R.m_str r' = R.m_str r.
Proof.
  rewrite skip_space_and_comma_spec. cbn [R.final].
  rewrite write_string_escape. intros Hst Hlast Hrem1.
  assert (Hlast' : last x dquote <> backslash).
  { destruct x as [|c x]; [discriminate|].
    rewrite (last_default c dquote NUL). exact Hlast. }
  rewrite (read_value_string_spec extract r st Hst). cbv zeta.
  set (r1 := skipped r) in *.
  cbn [app] in Hrem1. rewrite <- app_assoc in Hrem1. cbn [app] in Hrem1.
  assert (Hcur1 : cur r1 = dquote) by (rewrite cur_hd, Hrem1; reflexivity).
  rewrite Hcur1, Ascii.eqb_refl.
  set (r2 := R.set_pos (R.m_pos r1 + 1) (R.log_deref r1)).
  assert (Hrem2 : R.remaining r2 = escape x ++ dquote :: rest)
    by (apply remaining_advance with (1 := Hrem1); reflexivity).
  rewrite Hrem2, (find_if_str_escape x rest dquote Hlast').
  set (n := length (escape x)).
  assert (Hlen : length (R.m_str r2) = R.m_pos r2 + n + 1 + length rest).
  { pose proof (length_remaining r2) as H. rewrite Hrem2 in H.
    rewrite length_app in H. cbn [length] in H. fold n in H. lia. }
  replace (Nat.eqb (R.m_pos r2 + n) (length (R.m_str r2))) with false
    by (symmetry; apply Nat.eqb_neq; lia).
  rewrite range_firstn_remaining. fold (R.remaining r2). rewrite Hrem2.
  assert (Hfirst : firstn n (escape x ++ dquote :: rest) = escape x).
  { unfold n. rewrite firstn_app, firstn_all, Nat.sub_diag.
    simpl firstn. apply app_nil_r. }
  rewrite !Hfirst. fold n.
  set (r3 := R.set_pos (R.m_pos r2 + n) r2).
  assert (Hrem3 : R.remaining r3 = dquote :: rest).
  { rewrite (remaining_shift r2 r3 n eq_refl eq_refl), Hrem2.
    apply skipn_length_app. }
  assert (Hcur3 : cur r3 = dquote) by (rewrite cur_hd, Hrem3; reflexivity).
  rewrite Hcur3, Ascii.eqb_refl. cbn [negb].
  rewrite unescape_escape.
  eexists. split; [reflexivity|]. split; [|reflexivity].
  apply remaining_advance with (1 := Hrem3); reflexivity.
Qed.

(** The specification's stress case [he said "hi"] comes back unchanged. *)
Lemma escaped_quotes_round_trip :
  let x := #"he said " ++ [dquote] ++ #"hi" ++ [dquote] in
  exists r', parse_string_field (render_field (pv_u8string x))
             = R.Ok (pv_u8string x) r'.
Proof. eexists. vm_compute. reflexivity. Qed.

(** C1 fails on the code for a string that ends in a backslash.  The writer
    does not escape backslashes, so the string made of one backslash is
    written as quote, backslash, quote, and the reader takes the last two
    characters for an escaped quote: reading the field back throws
    "unterminated value".  When more text with a quote follows, as in a
    tuple of two strings, the reader returns a wrong string instead: the
    first element [a\] of the tuple comes back with the following comma and
    space in it. *)
Theorem string_with_trailing_backslash_not_read_back :
  render_field (pv_u8string [backslash])
  = #"T ( " ++ [dquote; backslash; dquote] ++ #" )"
  /\ (exists r',
         parse_string_field (render_field (pv_u8string [backslash]))
         = R.Throw (R.logic_error #"malformed string (unterminated value)") r')
  /\ (let tuple := [pv_u8string [ "a"%char; backslash]; pv_u8string #"b"] in
      let text :=
        W.out (W.end_object
                 (W.write_tuple insert_nothing tuple
                    (W.begin_object #"T" W.init))) in
      exists r',
        R.bind R.seek_object
          (fun n => R.bind (R.begin_object n)
             (fun _ => R.bind (R.consume "{")
                (fun _ => R.read_value extract_nothing pt_u8string)))
          (R.init text)
        = R.Ok (pv_u8string ([ "a"%char; dquote] ++ #", ")) r').
Proof.
  split; [vm_compute; reflexivity|].
  split; eexists; vm_compute; reflexivity.
Qed.

(** Round trip through the writer and the reader: the text written for an
    object whose only field is the string [x] is read back as [x], for every
    [x] that does not end in a backslash. *)
Lemma string_field_round_trip (x : list ascii) :
  last x NUL <> backslash ->
  exists r',
    parse_string_field (render_field (pv_u8string x)) = R.Ok (pv_u8string x) r'
    /\ R.remaining r' = #" )".
Proof.
  intros Hlast.
  assert (Htext : render_field (pv_u8string x)
                  = #"T ( " ++ W.write_string x ++ #" )") by reflexivity.
  rewrite Htext. unfold parse_string_field.
  set (text := #"T ( " ++ W.write_string x ++ #" )").
  assert (Hseek : R.seek_object (R.init text)
                  = R.Ok #"T" (R.set_pos 1 (skipped (R.init text)))).
  { rewrite seek_object_spec. reflexivity. }
  unfold R.bind at 1. rewrite Hseek.
  unfold R.bind at 1. rewrite begin_object_spec. cbv zeta.
  set (r2 := skipped (skipped _)).
  assert (Hrem2 : R.remaining r2 = #"( " ++ W.write_string x ++ #" )")
    by reflexivity.
  assert (Hcur2 : cur r2 = "("%char) by (rewrite cur_hd, Hrem2; reflexivity).
  rewrite Hcur2. cbn [Ascii.eqb Bool.eqb].
  set (r3 := R.set_stack _ _).
  destruct (read_value_written_string extract_nothing x #" )" r3 [] eq_refl Hlast)
    as (r' & Hread & Hrem & _).
  { rewrite skip_space_and_comma_spec. cbn [R.final]. reflexivity. }
  exists r'. split; assumption.
Qed.

(** The replacement loop of [unescape] ends within the iterations it is
    given: more of them change nothing. *)
Lemma find_if_escaped_le (l : list ascii) :
  forall last_char, R.find_if_escaped last_char l <= length l.
Proof.
  induction l as [|c l IH]; intros last_char; simpl; [lia|].
  destruct (_ && _); [lia|]. specialize (IH c). lia.
Qed.

Lemma find_if_escaped_pos (l : list ascii) (last_char : ascii) :
  last_char <> backslash -> l <> [] -> 1 <= R.find_if_escaped last_char l.
Proof.
  intros Hlast Hl. destruct l as [|c l]; [contradiction|].
  apply Ascii.eqb_neq in Hlast. simpl. rewrite Hlast, andb_false_r. lia.
Qed.

Lemma replace_loop_step (fuel : nat) (substr : list ascii) (last_char : ascii)
    (sbegin : nat) (tmp : list ascii) :
  R.replace_loop (S fuel) substr last_char sbegin tmp
  = let i := sbegin + R.find_if_escaped last_char (skipn sbegin substr) in
    if Nat.eqb i (length substr) then (tmp, sbegin)
    else R.replace_loop fuel substr backslash (i - 1 + 2)
           (tmp ++ range substr sbegin (i - 1) ++ [dquote]).
Proof. reflexivity. Qed.

Lemma replace_loop_enough_fuel (fuel : nat) :
  forall (substr : list ascii) (last_char : ascii) (sbegin : nat)
         (tmp : list ascii),
    1 <= sbegin \/ last_char <> backslash ->
    sbegin <= length substr ->
    length substr - sbegin < fuel ->
    R.replace_loop (S fuel) substr last_char sbegin tmp
    = R.replace_loop fuel substr last_char sbegin tmp.
Proof.
  induction fuel as [|fuel IH]; intros substr last_char sbegin tmp Hstart Hle Hfuel;
    [lia|].
  rewrite (replace_loop_step (S fuel)), (replace_loop_step fuel). cbv zeta.
  set (i := sbegin + R.find_if_escaped last_char (skipn sbegin substr)).
  destruct (Nat.eqb i (length substr)) eqn:Ei; [reflexivity|].
  apply Nat.eqb_neq in Ei.
  pose proof (find_if_escaped_le (skipn sbegin substr) last_char) as Hfind.
  rewrite length_skipn in Hfind.
  assert (Hi : 1 <= i).
  { destruct Hstart as [H|H]; [unfold i; lia|].
    assert (Hne : skipn sbegin substr <> []).
    { intros E. apply Ei. unfold i. rewrite E.
      apply (f_equal (@length ascii)) in E. rewrite length_skipn in E.
      simpl in *. lia. }
    pose proof (find_if_escaped_pos _ last_char H Hne). unfold i. lia. }
  apply IH; unfold i in *; lia.
Qed.

Lemma unescape_enough_fuel (substr : list ascii) (more : nat) :
  R.replace_loop (S (length substr) + more) substr " " 0 []
  = R.replace_loop (S (length substr)) substr " " 0 [].
Proof.
  induction more as [|more IH]; [rewrite Nat.add_0_r; reflexivity|].
  rewrite Nat.add_succ_r, <- IH.
  apply replace_loop_enough_fuel; [right; discriminate|lia..].
Qed.

(** * Further properties of the reader and the writer *)

(** ** Separators and single characters *)

(** X1: [skip_space_and_comma] always returns.  It moves the cursor over
    exactly the spaces and commas the rest of the input starts with, stops
    on a character that is neither (the terminator at the end of the
    input), changes nothing else, keeps the cursor inside the input, and a
    second call right after it does not move. *)
Theorem skip_space_and_comma_skips_separators (r : R.t) :
  exists r',
    R.skip_space_and_comma r = R.Ok tt r'
    /\ R.m_pos r' = R.m_pos r + leading_separators (R.remaining r)
    /\ separators (range (R.m_str r) (R.m_pos r) (R.m_pos r'))
    /\ R.is_space_or_comma (cur r') = false
    /\ R.m_str r' = R.m_str r
    /\ R.m_obj_count r' = R.m_obj_count r
    /\ R.m_obj_had_left_parenthesis r' = R.m_obj_had_left_parenthesis r
    /\ (in_bounds r -> in_bounds r')
    /\ (exists r'',
          R.skip_space_and_comma r' = R.Ok tt r''
          /\ R.m_pos r'' = R.m_pos r').
Proof.
  exists (skipped r). split; [apply skip_space_and_comma_spec|].
  split; [reflexivity|].
  split.
  { simpl R.m_pos. rewrite range_firstn_remaining.
    apply leading_separators_split. }
  split; [apply cur_skipped_not_separator|].
  do 3 (split; [reflexivity|]).
  split; [apply in_bounds_skipped|].
  exists (skipped (skipped r)). split; [apply skip_space_and_comma_spec|].
  apply skipped_twice_pos.
Qed.

(** X2: [try_consume] never throws, and it answers [true] exactly when
    [consume] of the same character returns; the two then end in the same
    state, one character behind the separators.  When [try_consume] answers
    [false] it leaves the cursor on the character it found, which is not a
    separator, and [consume] throws the malformed-string error that names
    the expected and the found character. *)
Theorem try_consume_agrees_with_consume (c : ascii) (r : R.t) :
  match R.try_consume c r with
  | R.Ok true r1 =>
      R.consume c r = R.Ok tt r1
      /\ cur (R.final (R.skip_space_and_comma r)) = c
      /\ R.m_pos r1 = R.m_pos (R.final (R.skip_space_and_comma r)) + 1
  | R.Ok false r1 =>
      cur r1 <> c
      /\ R.is_space_or_comma (cur r1) = false
      /\ R.m_pos r1 = R.m_pos (R.final (R.skip_space_and_comma r))
      /\ exists r2,
           R.consume c r
           = R.Throw
               (R.logic_error
                  (#"malformed string: " ++ #"expected '" ++ [c]
                   ++ #"' found '" ++ [cur r1] ++ #"'")) r2
           /\ R.m_pos r2 = R.m_pos r1
  | R.Throw _ _ => False
  end.
Proof.
  rewrite try_consume_spec, consume_spec, skip_space_and_comma_spec.
  cbv zeta. cbn [R.final].
  destruct (Ascii.eqb (cur (skipped r)) c) eqn:E.
  - apply Ascii.eqb_eq in E. auto.
  - apply Ascii.eqb_neq in E.
    change (cur (R.log_deref (skipped r))) with (cur (skipped r)).
    split; [exact E|]. split; [apply cur_skipped_not_separator|].
    split; [reflexivity|]. eexists. split; reflexivity.
Qed.

(** ** Calls outside an object with fields *)

Lemma integrity_check_throws (r : R.t) (msg : list ascii) :
  match R.m_obj_had_left_parenthesis r with
  | [] => msg = #"missing begin_object()"
  | false :: _ =>
      msg = #"expected left parenthesis after begin_object call or void value"
  | true :: _ => False
  end ->
  R.integrity_check r
  = R.Throw (R.logic_error (#"malformed string: " ++ msg)) r.
Proof.
  unfold R.integrity_check, R.bind, R.gets.
  destruct (R.m_obj_had_left_parenthesis r) as [|[] st];
    intros H; try contradiction; subst msg; reflexivity.
Qed.

Lemma needs_fields extract (r : R.t) (msg : list ascii) :
  R.integrity_check r
  = R.Throw (R.logic_error (#"malformed string: " ++ msg)) r ->
  (forall tag,
      R.read_value extract tag r
      = R.Throw (R.logic_error (#"malformed string: " ++ msg)) r)
  /\ R.begin_sequence r
     = R.Throw (R.logic_error (#"malformed string: " ++ msg)) r
  /\ (forall tags,
         R.read_tuple extract tags r
         = R.Throw (R.logic_error (#"malformed string: " ++ msg)) r).
Proof.
  intros H. repeat split; intros;
    unfold R.read_value, R.begin_sequence, R.read_tuple, R.bind at 1;
    rewrite H; reflexivity.
Qed.

(** X3: the calls that need an open object refuse to work without one, and
    touch nothing.  With no object open, [read_value], [begin_sequence],
    [read_tuple] and [end_object] throw "malformed string: missing
    begin_object()".  Inside an object that had no left parenthesis (a void
    object), [read_value], [begin_sequence] and [read_tuple] throw
    "malformed string: expected left parenthesis after begin_object call or
    void value".  In every case the reader is left exactly as it was: the
    cursor has not moved and has not been dereferenced, and the object
    counter has not been decremented. *)
Theorem calls_outside_object_are_refused extract (r : R.t) :
  (R.m_obj_had_left_parenthesis r = [] ->
   let e := R.logic_error (#"malformed string: " ++ #"missing begin_object()") in
   (forall tag, R.read_value extract tag r = R.Throw e r)
   /\ R.begin_sequence r = R.Throw e r
   /\ (forall tags, R.read_tuple extract tags r = R.Throw e r)
   /\ R.end_object r = R.Throw e r)
  /\ (forall st,
         R.m_obj_had_left_parenthesis r = false :: st ->
         let e :=
           R.logic_error
             (#"malformed string: "
              ++ #"expected left parenthesis after begin_object call or void value") in
         (forall tag, R.read_value extract tag r = R.Throw e r)
         /\ R.begin_sequence r = R.Throw e r
         /\ (forall tags, R.read_tuple extract tags r = R.Throw e r)).
Proof.
  split.
  - intros Hst e.
    destruct (needs_fields extract r #"missing begin_object()") as (H1 & H2 & H3).
    { apply integrity_check_throws. rewrite Hst. reflexivity. }
    repeat split; [exact H1|exact H2|exact H3|].
    unfold R.end_object, R.bind at 1, R.gets at 1. rewrite Hst. reflexivity.
  - intros st Hst e.
    apply needs_fields. apply integrity_check_throws. rewrite Hst. reflexivity.
Qed.

(** ** The object counter and the parenthesis stack *)

Lemma keeps_ret {A} (a : A) : keeps_scopes (R.ret a).
Proof. intros r. split; reflexivity. Qed.

Lemma keeps_throw {A} (e : R.exn) : keeps_scopes (@R.throw A e).
Proof. intros r. split; reflexivity. Qed.

Lemma keeps_throw_malformed {A} (msg : list ascii) :
  keeps_scopes (@R.throw_malformed A msg).
Proof. intros r. split; reflexivity. Qed.

Lemma keeps_gets {A} (f : R.t -> A) : keeps_scopes (R.gets f).
Proof. intros r. split; reflexivity. Qed.

Lemma keeps_deref : keeps_scopes R.deref.
Proof. intros r. split; reflexivity. Qed.

Lemma keeps_modify (f : R.t -> R.t) :
  (forall r, R.m_obj_count (f r) = R.m_obj_count r
             /\ R.m_obj_had_left_parenthesis (f r)
                = R.m_obj_had_left_parenthesis r) ->
  keeps_scopes (R.modify f).
Proof. intros Hf r. apply Hf. Qed.

Lemma keeps_bind {A B} (m : R.M A) (k : A -> R.M B) :
  keeps_scopes m -> (forall a, keeps_scopes (k a)) -> keeps_scopes (R.bind m k).
Proof.
  intros Hm Hk r. unfold R.bind. specialize (Hm r).
  destruct (m r) as [a r'|e r']; simpl in *; [|exact Hm].
  destruct (Hk a r') as [H1 H2]. destruct Hm as [H3 H4].
  rewrite H1, H2. split; assumption.
Qed.

Lemma keeps_skip_space_and_comma : keeps_scopes R.skip_space_and_comma.
Proof. intros r. rewrite skip_space_and_comma_spec. split; reflexivity. Qed.

Ltac keeps :=
  repeat match goal with
    | |- keeps_scopes (R.ret _) => apply keeps_ret
    | |- keeps_scopes (R.throw_malformed _) => apply keeps_throw_malformed
    | |- keeps_scopes (R.throw _) => apply keeps_throw
    | |- keeps_scopes (R.gets _) => apply keeps_gets
    | |- keeps_scopes R.deref => apply keeps_deref
    | |- keeps_scopes R.skip_space_and_comma => apply keeps_skip_space_and_comma
    | |- keeps_scopes (R.advance _) => unfold R.advance
    | |- keeps_scopes (R.modify _) =>
        apply keeps_modify; intros; split; reflexivity
    | |- keeps_scopes (R.bind _ _) => apply keeps_bind; [|intros ?]
    | |- keeps_scopes (if ?b then _ else _) => destruct b
    | |- keeps_scopes (match ?x with _ => _ end) => destruct x
    end.

Lemma keeps_consume (c : ascii) : keeps_scopes (R.consume c).
Proof. unfold R.consume. keeps. Qed.

Lemma keeps_try_consume (c : ascii) : keeps_scopes (R.try_consume c).
Proof. unfold R.try_consume. keeps. Qed.

Lemma keeps_integrity_check : keeps_scopes R.integrity_check.
Proof. unfold R.integrity_check. keeps. Qed.

Lemma keeps_seek_object : keeps_scopes R.seek_object.
Proof. unfold R.seek_object, R.next_delimiter. keeps. Qed.

Lemma keeps_peek_object : keeps_scopes R.peek_object.
Proof.
  unfold R.peek_object. apply keeps_bind; [apply keeps_seek_object|intros ?].
  keeps.
Qed.

Lemma keeps_begin_sequence : keeps_scopes R.begin_sequence.
Proof.
  unfold R.begin_sequence.
  apply keeps_bind; [apply keeps_integrity_check|intros ?].
  apply keeps_bind; [apply keeps_consume|intros ?]. keeps.
Qed.

Lemma keeps_read_value extract (tag : primitive_type) :
  keeps_scopes (R.read_value extract tag).
Proof.
  unfold R.read_value.
  apply keeps_bind; [apply keeps_integrity_check|intros ?]. keeps.
Qed.

Lemma keeps_read_values extract (tags : list primitive_type) :
  keeps_scopes (R.read_values extract tags).
Proof.
  induction tags as [|tag tags IH]; simpl; [apply keeps_ret|].
  apply keeps_bind; [apply keeps_read_value|intros v].
  apply keeps_bind; [exact IH|intros vs]. apply keeps_ret.
Qed.

Lemma keeps_read_tuple extract (tags : list primitive_type) :
  keeps_scopes (R.read_tuple extract tags).
Proof.
  unfold R.read_tuple.
  apply keeps_bind; [apply keeps_integrity_check|intros ?].
  apply keeps_bind; [apply keeps_consume|intros ?].
  apply keeps_bind; [apply keeps_read_values|intros ?].
  apply keeps_bind; [apply keeps_consume|intros ?]. apply keeps_ret.
Qed.

Lemma counts_depth_kept {A} (m : R.M A) (r : R.t) :
  keeps_scopes m -> counts_depth r -> counts_depth (R.final (m r)).
Proof.
  intros Hm H. destruct (Hm r) as [H1 H2]. unfold counts_depth.
  rewrite H1, H2. exact H.
Qed.

Lemma counts_depth_push (n : nat) :
  R.incr_size (Z.of_nat n mod R.size_max)
  = (Z.of_nat (S n) mod R.size_max)%Z.
Proof.
  unfold R.incr_size. rewrite Zplus_mod_idemp_l. f_equal. lia.
Qed.

Lemma counts_depth_pop (n : nat) :
  R.decr_size (Z.of_nat (S n) mod R.size_max)
  = (Z.of_nat n mod R.size_max)%Z.
Proof.
  unfold R.decr_size. rewrite Zminus_mod_idemp_l. f_equal. lia.
Qed.

Lemma counts_depth_begin_object (name : list ascii) (r : R.t) :
  counts_depth r -> counts_depth (R.final (R.begin_object name r)).
Proof.
  unfold counts_depth. intros H. rewrite begin_object_spec. cbv zeta.
  destruct (Ascii.eqb _ "("); cbn [R.final]; simpl; rewrite H;
    apply counts_depth_push.
Qed.

Lemma counts_depth_end_object (r : R.t) :
  counts_depth r -> counts_depth (R.final (R.end_object r)).
Proof.
  intros H.
  destruct (R.m_obj_had_left_parenthesis r) as [|top st] eqn:Hst.
  - unfold R.end_object, R.bind at 1, R.gets at 1. rewrite Hst. exact H.
  - rewrite (end_object_unfold r top st Hst).
    assert (Hclose : keeps_scopes (close_top top))
      by (unfold close_top; destruct top; [apply keeps_consume|apply keeps_ret]).
    destruct (Hclose r) as [Hc Hs].
    destruct (close_top top r) as [[] ra|e ra]; cbn [R.final] in *.
    + assert (Hb : counts_depth
                     (R.set_obj_count (R.decr_size (R.m_obj_count ra))
                        (R.set_stack st ra))).
      { unfold counts_depth in *. simpl. rewrite Hc, H, Hst.
        apply counts_depth_pop. }
      cbv zeta. destruct (Z.eqb _ 0); [|exact Hb].
      destruct (Nat.eqb _ _); exact Hb.
    + unfold counts_depth in *. rewrite Hc, Hs. exact H.
Qed.

Lemma counts_depth_run extract (c : R.call) (r : R.t) :
  counts_depth r -> counts_depth (R.final (R.run extract c r)).
Proof.
  destruct c; simpl;
    try apply counts_depth_begin_object; try apply counts_depth_end_object;
    apply counts_depth_kept;
    first [ apply keeps_consume
          | apply keeps_bind; [|intros ?; apply keeps_ret] ].
  - apply keeps_seek_object.
  - apply keeps_peek_object.
  - apply keeps_begin_sequence.
  - apply keeps_read_value.
  - apply keeps_read_tuple.
Qed.

Lemma counts_depth_run_all extract (cs : list R.call) :
  forall r, counts_depth r -> counts_depth (R.final (R.run_all extract cs r)).
Proof.
  induction cs as [|c cs IH]; intros r H; [exact H|].
  simpl. unfold R.bind.
  pose proof (counts_depth_run extract c r H) as Hc.
  destruct (R.run extract c r) as [[] r'|e r']; simpl in *; auto.
Qed.

(** X4: the object counter always equals the depth of the parenthesis
    stack (as a [size_t]).  Whatever requests the reader serves on whatever
    text, and whether the run returns or throws, [m_obj_count] is the number
    of flags on [m_obj_had_left_parenthesis]: [begin_object] increments and
    pushes, [end_object] pops and decrements or does neither, and no other
    member touches them.  In particular, below [2^64] open objects, the
    counter is zero exactly when no object is open. *)
Theorem object_counter_is_stack_depth extract (text : list ascii)
    (calls : list R.call) :
  let r' := R.final (R.run_all extract calls (R.init text)) in
  R.m_obj_count r'
  = (Z.of_nat (length (R.m_obj_had_left_parenthesis r')) mod R.size_max)%Z
  /\ ((Z.of_nat (length (R.m_obj_had_left_parenthesis r')) < R.size_max)%Z ->
      (R.m_obj_count r' = 0%Z <-> R.m_obj_had_left_parenthesis r' = [])).
Proof.
  intros r'.
  assert (H : counts_depth r')
    by (apply counts_depth_run_all; reflexivity).
  split; [exact H|]. intros Hlt. unfold counts_depth in H.
  rewrite Z.mod_small in H by lia. rewrite H.
  destruct (R.m_obj_had_left_parenthesis r'); simpl; split;
    intros; try reflexivity; try discriminate; lia.
Qed.

(** ** Type names and object brackets *)

Lemma find_if_stops (p : ascii -> bool) (l : list ascii) :
  skipn (find_if p l) l = [] \/ p (hd NUL (skipn (find_if p l) l)) = true.
Proof.
  induction l as [|c l IH]; simpl; [left; reflexivity|].
  destruct (p c) eqn:E; simpl; [right; exact E|exact IH].
Qed.

Lemma separator_is_delimiter (c : ascii) :
  R.is_space_or_comma c = true -> R.is_delimiter c = true.
Proof.
  unfold R.is_space_or_comma, R.is_delimiter. intros H.
  apply orb_true_iff in H. destruct H as [-> | ->];
    rewrite ?orb_true_r; reflexivity.
Qed.

(** X5: what [seek_object] returns is a name.  When it returns, the name is
    not empty, holds none of the delimiters (parentheses, braces, space,
    comma), is the text between the leading separators and the cursor, and
    the cursor stands at the end of the input or on a delimiter.  When it
    throws, the error is "malformed string: could not seek object type
    name", and behind the separators the input is at its end or continues
    with a parenthesis or a brace. *)
Theorem seek_object_returns_a_name (r : R.t) :
  match R.seek_object r with
  | R.Ok name r' =>
      name <> []
      /\ Forall (fun c => R.is_delimiter c = false) name
      /\ R.m_pos r'
         = R.m_pos r + leading_separators (R.remaining r) + length name
      /\ name = range (R.m_str r) (R.m_pos r' - length name) (R.m_pos r')
      /\ (R.remaining r' = [] \/ R.is_delimiter (cur r') = true)
      /\ R.m_str r' = R.m_str r
  | R.Throw e r' =>
      e = R.logic_error
            (#"malformed string: " ++ #"could not seek object type name")
      /\ (R.remaining r' = []
          \/ (R.is_delimiter (cur r') = true
              /\ R.is_space_or_comma (cur r') = false))
  end.
Proof.
  rewrite seek_object_spec. cbv zeta.
  set (r1 := skipped r).
  set (d := find_if R.is_delimiter (R.remaining r1)).
  assert (Hd : d <= length (R.remaining r1)) by apply find_if_le.
  pose proof (find_if_stops R.is_delimiter (R.remaining r1)) as Hstop.
  fold d in Hstop.
  destruct (Nat.eqb d 0) eqn:Ed.
  - apply Nat.eqb_eq in Ed. split; [reflexivity|].
    rewrite Ed in Hstop. simpl in Hstop.
    destruct Hstop as [H|H]; [left; exact H|right].
    rewrite cur_hd. split; [exact H|].
    rewrite <- cur_hd. apply cur_skipped_not_separator.
  - apply Nat.eqb_neq in Ed.
    assert (Hlen : length (firstn d (R.remaining r1)) = d)
      by (rewrite length_firstn; lia).
    split.
    { intros E. rewrite E in Hlen. simpl in Hlen. lia. }
    split; [apply find_if_prefix|].
    rewrite Hlen. split; [reflexivity|].
    split.
    { cbn [R.m_pos R.set_pos R.m_str].
      replace (R.m_pos r1 + d - d) with (R.m_pos r1) by lia.
      symmetry. apply range_firstn_remaining. }
    split; [|reflexivity].
    assert (Hrem : R.remaining (R.set_pos (R.m_pos r1 + d) r1)
                   = skipn d (R.remaining r1))
      by (apply remaining_shift; reflexivity).
    rewrite cur_hd, Hrem. exact Hstop.
Qed.

(** X6: [begin_object] never throws and never looks at its argument.  It
    increments the object counter, skips the separators, and pushes one
    flag: [true], with the cursor moved behind the left parenthesis, when
    the next character is a left parenthesis, and [false], with the cursor
    left on that character, when it is not. *)
Theorem begin_object_records_parenthesis (type_name : list ascii) (r : R.t) :
  (forall other_name,
      R.begin_object other_name r = R.begin_object type_name r)
  /\ exists b r',
       R.begin_object type_name r = R.Ok tt r'
       /\ (b = true <-> cur (R.final (R.skip_space_and_comma r)) = "("%char)
       /\ R.m_obj_had_left_parenthesis r' = b :: R.m_obj_had_left_parenthesis r
       /\ R.m_obj_count r' = R.incr_size (R.m_obj_count r)
       /\ R.m_pos r'
          = R.m_pos (R.final (R.skip_space_and_comma r)) + (if b then 1 else 0)
       /\ R.m_str r' = R.m_str r.
Proof.
  split; [reflexivity|].
  rewrite skip_space_and_comma_spec. cbn [R.final].
  rewrite begin_object_spec. cbv zeta.
  set (r0 := R.set_obj_count (R.incr_size (R.m_obj_count r)) r).
  destruct (skipped_twice_pos r0) as [Hpos Hrem].
  assert (Hcur : cur (skipped (skipped r0)) = cur (skipped r))
    by (rewrite !cur_hd, Hrem; reflexivity).
  assert (Hp : R.m_pos (skipped (skipped r0)) = R.m_pos (skipped r))
    by exact Hpos.
  rewrite Hcur.
  destruct (Ascii.eqb (cur (skipped r)) "(") eqn:E.
  - apply Ascii.eqb_eq in E. exists true. eexists.
    split; [reflexivity|]. split; [tauto|].
    repeat split. cbn [R.m_pos R.set_pos R.set_stack R.log_deref].
    rewrite Hp. reflexivity.
  - apply Ascii.eqb_neq in E. exists false. eexists.
    split; [reflexivity|].
    split; [split; [discriminate|intros H; contradiction]|].
    repeat split. cbn [R.m_pos R.set_pos R.set_stack R.log_deref].
    rewrite Hp. lia.
Qed.

(** X7: [end_object] for an object that had its left parenthesis.  If the
    next character behind the separators is not a right parenthesis (the
    terminator at the end of the input included), it throws "malformed
    string: expected ')' found" that character, and the object stays open:
    stack and counter are as before.  If it is a right parenthesis and other
    objects remain open, it returns with the cursor just behind the
    parenthesis, the flag popped and the counter decremented, whatever text
    follows. *)
Theorem end_object_reads_right_parenthesis (r : R.t) (st : list bool) :
  R.m_obj_had_left_parenthesis r = true :: st ->
  let c := cur (R.final (R.skip_space_and_comma r)) in
  (c <> ")"%char ->
   exists r',
     R.end_object r
     = R.Throw
         (R.logic_error
            (#"malformed string: " ++ #"expected ')' found '" ++ [c] ++ #"'"))
         r'
     /\ R.m_obj_had_left_parenthesis r' = true :: st
     /\ R.m_obj_count r' = R.m_obj_count r)
  /\ (c = ")"%char ->
      R.decr_size (R.m_obj_count r) <> 0%Z ->
      exists r',
        R.end_object r = R.Ok tt r'
        /\ R.m_pos r' = R.m_pos (R.final (R.skip_space_and_comma r)) + 1
        /\ R.m_obj_had_left_parenthesis r' = st
        /\ R.m_obj_count r' = R.decr_size (R.m_obj_count r)).
Proof.
  intros Hst. rewrite skip_space_and_comma_spec. cbn [R.final]. cbv zeta.
  rewrite (end_object_unfold r true st Hst).
  unfold close_top. rewrite consume_spec. cbv zeta.
  split.
  - intros Hc. apply Ascii.eqb_neq in Hc. rewrite Hc.
    eexists. split; [reflexivity|]. split; [exact Hst|reflexivity].
  - intros Hc Hn. rewrite Hc. cbn [Ascii.eqb Bool.eqb]. cbv zeta.
    change (Ascii.eqb ")" ")") with true. cbv iota.
    apply Z.eqb_neq in Hn. simpl R.m_obj_count. rewrite Hn.
    eexists. split; [reflexivity|]. repeat split.
Qed.

(** The text [Foo ( 1, 2] lacks its right parenthesis: [end_object] finds
    the terminator in its place. *)
Lemma end_object_reads_right_parenthesis_witness :
  exists r',
    R.end_object (in_object #"Foo ( 1, 2" 10)
    = R.Throw
        (R.logic_error
           (#"malformed string: " ++ #"expected ')' found '" ++ [NUL] ++ #"'"))
        r'
    /\ R.m_obj_count r' = 1%Z.
Proof.
  destruct (end_object_reads_right_parenthesis
              (in_object #"Foo ( 1, 2" 10) [] eq_refl) as [H _].
  destruct H as (r' & H1 & _ & H2).
  - vm_compute. discriminate.
  - exists r'. split; [exact H1|exact H2].
Defined.

(** ** Values *)

(** X8: what [read_value] hands to the stream extraction for an arithmetic
    tag.  Inside an object with fields the token is the text between the
    separators and the next end of value (space, comma, right parenthesis or
    closing brace); it holds none of these four characters and may be
    empty.  If an end of value follows, [read_value] returns the extraction
    of the token into a zero value and leaves the cursor on that end of
    value, stack and counter untouched.  If the input ends first, it throws
    "malformed string (unterminated value)", however well formed the token
    is. *)
Theorem read_value_arithmetic_token extract (a : arithmetic_type) (r : R.t)
    (st : list bool) :
  in_bounds r ->
  R.m_obj_had_left_parenthesis r = true :: st ->
  let r1 := R.final (R.skip_space_and_comma r) in
  let n := find_if R.find_if_cond (R.remaining r1) in
  let token := firstn n (R.remaining r1) in
  Forall (fun c => R.find_if_cond c = false) token
  /\ (n = length (R.remaining r1) ->
      exists r',
        R.read_value extract (pt_arithmetic a) r
        = R.Throw (R.logic_error #"malformed string (unterminated value)") r')
  /\ (n < length (R.remaining r1) ->
      exists r',
        R.read_value extract (pt_arithmetic a) r
        = R.Ok (pv_arithmetic a (extract a token 0%Z)) r'
        /\ R.m_pos r' = R.m_pos r1 + n
        /\ R.find_if_cond (cur r') = true
        /\ R.m_obj_had_left_parenthesis r' = R.m_obj_had_left_parenthesis r
        /\ R.m_obj_count r' = R.m_obj_count r).
Proof.
  rewrite skip_space_and_comma_spec. cbn [R.final].
  intros Hb Hst.
  set (r1 := skipped r). set (n := find_if R.find_if_cond (R.remaining r1)).
  cbv zeta. split; [apply find_if_prefix|].
  rewrite (read_value_other_spec extract (pt_arithmetic a) r st eq_refl Hst).
  cbv zeta. fold r1. fold n.
  assert (Hb1 : in_bounds r1) by (apply in_bounds_skipped; exact Hb).
  assert (Hn : n <= length (R.remaining r1)) by apply find_if_le.
  pose proof (scan_reaches_end r1 n Hb1 Hn) as Hend.
  destruct (Nat.eqb (R.m_pos r1 + n) (length (R.m_str r1))) eqn:E.
  - assert (n = length (R.remaining r1)) by (apply Hend; reflexivity).
    split; [eexists; reflexivity|lia].
  - assert (Hlt : n < length (R.remaining r1)).
    { destruct (Nat.eq_dec n (length (R.remaining r1))) as [En|En]; [|lia].
      apply Hend in En. discriminate. }
    split; [lia|]. intros _.
    rewrite range_firstn_remaining. fold (R.remaining r1).
    rewrite length_firstn, Nat.min_l by exact Hn.
    eexists. split; [reflexivity|]. split; [reflexivity|].
    split; [|split; reflexivity].
    set (r3 := R.set_pos _ _).
    assert (Hcur3 : cur r3 = nth n (R.remaining r1) NUL)
      by (rewrite nth_remaining; reflexivity).
    rewrite Hcur3. apply find_if_found. exact Hlt.
Qed.

Lemma read_value_arithmetic_token_witness :
  exists r',
    R.read_value extract_nothing (pt_arithmetic at_int32)
      (in_object #"Foo ( 12, 3 )" 5)
    = R.Ok (pv_arithmetic at_int32 (extract_nothing at_int32 #"12" 0%Z)) r'
    /\ R.m_pos r' = 8.
Proof.
  destruct (read_value_arithmetic_token extract_nothing at_int32
              (in_object #"Foo ( 12, 3 )" 5) [])
    as (_ & _ & H).
  - unfold in_bounds. simpl. lia.
  - reflexivity.
  - destruct H as (r' & H1 & H2 & _).
    + vm_compute. lia.
    + exists r'. split; [exact H1|]. vm_compute in H2. exact H2.
Defined.

(** X9: the replacement loop of [read_value] undoes the escaping of
    [pt_writer] for every string, a trailing backslash included: what the
    writer puts between the two quotes is turned back into the string. *)
Theorem unescape_inverts_writer_escaping (str : list ascii) :
  exists body,
    W.write_string str = [dquote] ++ body ++ [dquote]
    /\ R.unescape body = str.
Proof.
  exists (escape str). split; [reflexivity|apply unescape_escape].
Qed.

(** X10: round trip of one string.  Let [str] not end in a backslash.
    Inside an object with fields, if the text behind the separators is what
    [pt_writer] writes for [str], followed by anything, then [read_value]
    with the string tag returns [str] and leaves the cursor behind the
    closing quote, stack and counter untouched.  Quotes, delimiters and
    backslashes elsewhere in [str] do no harm. *)
Theorem written_string_is_read_back extract (str rest : list ascii) (r : R.t)
    (st : list bool) :
  R.m_obj_had_left_parenthesis r = true :: st ->
  last str NUL <> backslash ->
  R.remaining (R.final (R.skip_space_and_comma r))
  = W.pt_writer insert_nothing (pv_u8string str) ++ rest ->
  exists r',
    R.read_value extract pt_u8string r = R.Ok (pv_u8string str) r'
    /\ R.remaining r' = rest
    /\ R.m_str r' = R.m_str r
    /\ R.m_obj_had_left_parenthesis r' = R.m_obj_had_left_parenthesis r
    /\ R.m_obj_count r' = R.m_obj_count r.
Proof.
  intros Hst Hlast Hrem.
  destruct (read_value_written_string extract str rest r st Hst Hlast Hrem)
    as (r' & Hread & Hrest & Hstr).
  exists r'. split; [exact Hread|]. split; [exact Hrest|]. split; [exact Hstr|].
  destruct (keeps_read_value extract pt_u8string r) as [Hc Hs].
  rewrite Hread in Hc, Hs. simpl in Hc, Hs. auto.
Qed.

Lemma written_string_is_read_back_witness :
  exists r',
    R.read_value extract_nothing pt_u8string
      (in_object (#"T ( " ++ W.write_string #"a, b) c" ++ #" )") 3)
    = R.Ok (pv_u8string #"a, b) c") r'
    /\ R.remaining r' = #" )".
Proof.
  destruct (written_string_is_read_back extract_nothing #"a, b) c" #" )"
              (in_object (#"T ( " ++ W.write_string #"a, b) c" ++ #" )") 3) [])
    as (r' & H1 & H2 & _).
  - reflexivity.
  - vm_compute. discriminate.
  - vm_compute. reflexivity.
  - exists r'. split; [exact H1|exact H2].
Defined.

(** ** The text the writer produces *)

Lemma clear_after_value (w : W.t) : W.m_after_value (W.clear w) = false.
Proof.
  unfold W.clear. destruct (W.m_after_value w) eqn:Ha; [reflexivity|].
  destruct (W.m_obj_just_opened w); simpl; auto.
Qed.

Lemma clear_obj_just_opened (w : W.t) :
  W.m_obj_just_opened (W.clear w)
  = W.m_after_value w && W.m_obj_just_opened w.
Proof.
  unfold W.clear. destruct (W.m_after_value w); [reflexivity|].
  destruct (W.m_obj_just_opened w) eqn:Hj; simpl; auto.
Qed.

Lemma clear_open_objects (w : W.t) :
  W.m_open_objects (W.clear w) = W.m_open_objects w.
Proof.
  unfold W.clear. destruct (W.m_after_value w); [reflexivity|].
  destruct (W.m_obj_just_opened w); reflexivity.
Qed.

Lemma clear_out (w : W.t) :
  W.out (W.clear w)
  = W.out w ++ (if W.m_after_value w then #", "
                else if W.m_obj_just_opened w then #" ( " else []).
Proof.
  unfold W.clear. destruct (W.m_after_value w); [reflexivity|].
  destruct (W.m_obj_just_opened w); simpl; rewrite ?app_nil_r; reflexivity.
Qed.

(** A run of [write_value] calls: the separator [clear] owes, then the
    values with comma-space between them. *)
Lemma write_values_nonempty ins (vs : list primitive_variant) :
  forall (v : primitive_variant) (w : W.t),
    W.write_values ins (v :: vs) w
    = {| W.out := W.out (W.clear w)
                  ++ join #", " (map (W.pt_writer ins) (v :: vs));
         W.m_open_objects := W.m_open_objects w;
         W.m_after_value := true;
         W.m_obj_just_opened := W.m_obj_just_opened (W.clear w) |}.
Proof.
  induction vs as [|v' vs IH]; intros v w.
  - simpl. unfold W.write_value, W.set_after_value, W.put; simpl.
    rewrite clear_open_objects. reflexivity.
  - change (W.write_values ins (v :: v' :: vs) w)
      with (W.write_values ins (v' :: vs) (W.write_value ins v w)).
    rewrite IH.
    set (w1 := W.write_value ins v w).
    assert (Hout : W.out (W.clear w1)
                   = W.out (W.clear w) ++ W.pt_writer ins v ++ #", ").
    { rewrite clear_out. unfold w1; simpl. rewrite <- app_assoc. reflexivity. }
    assert (Hjo : W.m_obj_just_opened (W.clear w1)
                  = W.m_obj_just_opened (W.clear w)).
    { rewrite clear_obj_just_opened. unfold w1. reflexivity. }
    assert (Hopen : W.m_open_objects w1 = W.m_open_objects w).
    { unfold w1; simpl. apply clear_open_objects. }
    rewrite Hout, Hjo, Hopen. f_equal.
    change (map (W.pt_writer ins) (v :: v' :: vs))
      with (W.pt_writer ins v :: map (W.pt_writer ins) (v' :: vs)).
    cbn [map join]. rewrite <- !app_assoc. reflexivity.
Qed.

Lemma object_out ostream_insert (name : list ascii)
    (fields : list primitive_variant) (w : W.t) :
  let w' :=
    W.end_object (W.write_values ostream_insert fields (W.begin_object name w)) in
  W.out w'
  = W.out (W.clear w) ++ name
    ++ match fields with
       | [] => []
       | _ :: _ =>
           #" ( " ++ join #", " (map (W.pt_writer ostream_insert) fields)
           ++ #" )"
       end
  /\ W.m_after_value w' = true
  /\ W.m_obj_just_opened w' = false.
Proof.
  destruct fields as [|v vs].
  - simpl. rewrite app_nil_r. repeat split.
  - cbv zeta. rewrite write_values_nonempty.
    set (w0 := W.begin_object name w).
    assert (Ha : W.m_after_value w0 = false)
      by (unfold w0; simpl; apply clear_after_value).
    assert (Hc : W.out (W.clear w0) = (W.out (W.clear w) ++ name) ++ #" ( ").
    { rewrite clear_out, Ha. reflexivity. }
    assert (Hj : W.m_obj_just_opened (W.clear w0) = false)
      by (rewrite clear_obj_just_opened, Ha; reflexivity).
    rewrite Hc, Hj. unfold W.end_object; simpl.
    rewrite <- !app_assoc. repeat split.
Qed.

(** X11: the text of an object.  From any writer state, [begin_object name],
    one [write_value] per field and [end_object] add to the stream the
    separator [clear] owes, the name and, if there is at least one field,
    space-parenthesis-space, the fields separated by comma-space, and
    space-parenthesis: [name ( f1, f2 )].  Without fields only the name is
    added.  Afterwards [m_after_value] is set and [m_obj_just_opened]
    cleared, so whatever is written next is separated by comma-space. *)
Theorem object_text ostream_insert (name : list ascii)
    (fields : list primitive_variant) (w : W.t) :
  let w' :=
    W.end_object (W.write_values ostream_insert fields (W.begin_object name w)) in
  W.out w'
  = W.out (W.clear w) ++ name
    ++ match fields with
       | [] => []
       | _ :: _ =>
           #" ( " ++ join #", " (map (W.pt_writer ostream_insert) fields)
           ++ #" )"
       end
  /\ W.m_after_value w' = true
  /\ W.m_obj_just_opened w' = false.
Proof. apply object_out. Qed.

Lemma bracket_out ins (opening : list ascii) (values : list primitive_variant)
    (w : W.t) :
  W.m_after_value w = false -> W.m_obj_just_opened w = false ->
  let w' := W.end_sequence (W.write_values ins values (W.put opening w)) in
  W.out w'
  = W.out w ++ opening ++ join #", " (map (W.pt_writer ins) values)
    ++ match values with [] => #"}" | _ :: _ => #" }" end
  /\ W.m_after_value w' = match values with [] => false | _ :: _ => true end
  /\ W.m_obj_just_opened w' = false.
Proof.
  intros Ha Hj. destruct values as [|v vs].
  - cbv zeta. simpl. unfold W.end_sequence; simpl. rewrite Ha, Hj.
    rewrite <- app_assoc. repeat split.
  - cbv zeta. rewrite write_values_nonempty.
    assert (Hc : W.out (W.clear (W.put opening w)) = W.out w ++ opening).
    { rewrite clear_out. simpl. rewrite Ha, Hj. apply app_nil_r. }
    assert (Hjo : W.m_obj_just_opened (W.clear (W.put opening w)) = false).
    { rewrite clear_obj_just_opened. simpl. rewrite Ha. reflexivity. }
    rewrite Hc, Hjo. unfold W.end_sequence; simpl.
    rewrite <- !app_assoc. repeat split.
Qed.

Lemma flags_writer_run ins (c : writer_call) (w : W.t) :
  W.m_after_value w && W.m_obj_just_opened w = false ->
  W.m_after_value (writer_run ins c w)
  && W.m_obj_just_opened (writer_run ins c w) = false.
Proof.
  intros H. destruct c; cbn [writer_run].
  - simpl. rewrite clear_after_value. reflexivity.
  - unfold W.end_object.
    destruct (W.m_obj_just_opened w) eqn:Hj; simpl; rewrite ?Hj; reflexivity.
  - simpl. rewrite clear_after_value. reflexivity.
  - exact H.
  - simpl. rewrite clear_obj_just_opened. exact H.
  - destruct (bracket_out ins #" {" values (W.clear w)) as (_ & _ & Hj).
    + apply clear_after_value.
    + rewrite clear_obj_just_opened. exact H.
    + change (W.write_tuple ins values w)
        with (W.end_sequence
                (W.write_values ins values (W.put #" {" (W.clear w)))).
      cbv zeta in Hj. rewrite Hj. apply andb_false_r.
Qed.

Lemma flags_writer_run_all ins (cs : list writer_call) :
  forall w,
    W.m_after_value w && W.m_obj_just_opened w = false ->
    W.m_after_value (writer_run_all ins cs w)
    && W.m_obj_just_opened (writer_run_all ins cs w) = false.
Proof.
  induction cs as [|c cs IH]; intros w H; [exact H|].
  simpl. apply IH. apply flags_writer_run. exact H.
Qed.

Lemma writer_run_appends ins (c : writer_call) (w : W.t) :
  exists added, W.out (writer_run ins c w) = W.out w ++ added.
Proof.
  destruct c; cbn [writer_run].
  - simpl. rewrite clear_out, <- app_assoc. eexists. reflexivity.
  - unfold W.end_object. destruct (W.m_obj_just_opened w); simpl.
    + exists []. rewrite app_nil_r. reflexivity.
    + eexists. reflexivity.
  - simpl. rewrite clear_out, <- app_assoc. eexists. reflexivity.
  - eexists. reflexivity.
  - simpl. rewrite clear_out, <- app_assoc. eexists. reflexivity.
  - change (W.write_tuple ins values w)
      with (W.end_sequence
              (W.write_values ins values (W.put #" {" (W.clear w)))).
    rewrite bracket_body. simpl. rewrite clear_out, <- !app_assoc.
    eexists. reflexivity.
Qed.

(** X12: the writer never takes back what it has written, and its two
    flags exclude each other.  After any run of writer calls on any state,
    the stream is the old stream with text added behind it; and after any
    run on a fresh writer [m_after_value] and [m_obj_just_opened] are not
    both set, so [clear], which tests [m_after_value] first, never hides
    the parenthesis that an object owes. *)
Theorem writer_appends_and_flags_exclude ostream_insert
    (calls : list writer_call) :
  (forall w,
      exists added,
        W.out (writer_run_all ostream_insert calls w) = W.out w ++ added)
  /\ W.m_after_value (writer_run_all ostream_insert calls W.init)
     && W.m_obj_just_opened (writer_run_all ostream_insert calls W.init)
     = false.
Proof.
  split; [|apply flags_writer_run_all; reflexivity].
  induction calls as [|c cs IH]; intros w.
  - exists []. simpl. rewrite app_nil_r. reflexivity.
  - simpl. destruct (IH (writer_run ostream_insert c w)) as [a2 H2].
    destruct (writer_run_appends ostream_insert c w) as [a1 H1].
    exists (a1 ++ a2). rewrite H2, H1, app_assoc. reflexivity.
Qed.

(** X13: the text of a tuple and of a sequence.  In any state a fresh
    writer can reach, [write_tuple] adds the separator [clear] owes,
    space-brace, the values separated by comma-space, and space-brace, or
    just a closing brace when there is no value: [ {v1, v2 }] and [ {}].
    The bracket [begin_sequence], [write_value] per element, [end_sequence]
    adds the same with brace-space in front: [{ v1, v2 }] and [{ }]. *)
Theorem tuple_and_sequence_text ostream_insert (calls : list writer_call)
    (values : list primitive_variant) (size : Z) :
  let w := writer_run_all ostream_insert calls W.init in
  let body :=
    join #", " (map (W.pt_writer ostream_insert) values)
    ++ match values with [] => #"}" | _ :: _ => #" }" end in
  W.out (W.write_tuple ostream_insert values w)
  = W.out (W.clear w) ++ #" {" ++ body
  /\ W.out (W.end_sequence
              (W.write_values ostream_insert values (W.begin_sequence size w)))
     = W.out (W.clear w) ++ #"{ " ++ body.
Proof.
  intros w body.
  assert (Ha : W.m_after_value (W.clear w) = false) by apply clear_after_value.
  assert (Hj : W.m_obj_just_opened (W.clear w) = false).
  { rewrite clear_obj_just_opened. apply flags_writer_run_all. reflexivity. }
  split.
  - change (W.write_tuple ostream_insert values w)
      with (W.end_sequence
              (W.write_values ostream_insert values (W.put #" {" (W.clear w)))).
    apply (bracket_out ostream_insert #" {" values (W.clear w) Ha Hj).
  - apply (bracket_out ostream_insert #"{ " values (W.clear w) Ha Hj).
Qed.

(** ** Reading back what the writer wrote *)

Lemma skip_to_text (r : R.t) (seps text : list ascii) :
  separators seps ->
  R.is_space_or_comma (hd NUL text) = false ->
  R.remaining r = seps ++ text ->
  R.remaining (skipped r) = text.
Proof.
  intros Hseps Htext Hrem.
  rewrite remaining_skipped, Hrem, leading_separators_app by exact Hseps.
  rewrite (leading_separators_zero text Htext), Nat.add_0_r.
  apply skipn_length_app.
Qed.

Lemma consume_ok (c : ascii) (r : R.t) (seps tail : list ascii) :
  separators seps ->
  R.is_space_or_comma c = false ->
  R.remaining r = seps ++ c :: tail ->
  exists r',
    R.consume c r = R.Ok tt r'
    /\ R.remaining r' = tail
    /\ R.m_str r' = R.m_str r
    /\ R.m_obj_had_left_parenthesis r' = R.m_obj_had_left_parenthesis r
    /\ R.m_obj_count r' = R.m_obj_count r.
Proof.
  intros Hseps Hc Hrem.
  assert (Hrem1 : R.remaining (skipped r) = c :: tail)
    by (apply (skip_to_text r seps); assumption).
  rewrite consume_spec. cbv zeta.
  assert (Hcur : cur (skipped r) = c) by (rewrite cur_hd, Hrem1; reflexivity).
  rewrite Hcur, Ascii.eqb_refl.
  eexists. split; [reflexivity|].
  split; [apply remaining_advance with (1 := Hrem1); reflexivity|].
  repeat split.
Qed.

Lemma write_string_head (x rest : list ascii) :
  R.is_space_or_comma (hd NUL (W.write_string x ++ rest)) = false.
Proof. reflexivity. Qed.

(** One [read_value] per string reads a run of written strings that are
    separated by comma-space. *)
Lemma read_values_strings extract (strs : list (list ascii)) :
  forall (str : list ascii) (r : R.t) (st : list bool) (seps tail : list ascii),
    R.m_obj_had_left_parenthesis r = true :: st ->
    separators seps ->
    Forall (fun x => last x NUL <> backslash) (str :: strs) ->
    R.remaining r
    = seps ++ join #", " (map W.write_string (str :: strs)) ++ tail ->
    exists r',
      R.read_values extract (map (fun _ => pt_u8string) (str :: strs)) r
      = R.Ok (map pv_u8string (str :: strs)) r'
      /\ R.remaining r' = tail
      /\ R.m_str r' = R.m_str r
      /\ R.m_obj_had_left_parenthesis r' = R.m_obj_had_left_parenthesis r
      /\ R.m_obj_count r' = R.m_obj_count r.
Proof.
  induction strs as [|str' strs IH]; intros str r st seps tail Hst Hseps Hok Hrem;
    inversion Hok as [|? ? Hstr Hstrs]; subst.
  - cbn [map join] in Hrem.
    destruct (read_value_written_string extract str tail r st Hst Hstr)
      as (r1 & Hread & Hrem1 & Hstr1).
    { rewrite skip_space_and_comma_spec. cbn [R.final].
      apply (skip_to_text r seps); [exact Hseps|apply write_string_head|exact Hrem]. }
    destruct (keeps_read_value extract pt_u8string r) as [Hc Hs].
    rewrite Hread in Hc, Hs. cbn [R.final] in Hc, Hs.
    cbn [map R.read_values]. unfold R.bind at 1. rewrite Hread.
    unfold R.bind, R.ret. exists r1. auto.
  - change (join #", " (map W.write_string (str :: str' :: strs)))
      with (W.write_string str
            ++ #", " ++ join #", " (map W.write_string (str' :: strs)))
      in Hrem.
    rewrite <- !app_assoc in Hrem.
    destruct (read_value_written_string extract str
                (#", " ++ join #", " (map W.write_string (str' :: strs)) ++ tail)
                r st Hst Hstr)
      as (r1 & Hread & Hrem1 & Hstr1).
    { rewrite skip_space_and_comma_spec. cbn [R.final].
      apply (skip_to_text r seps); [exact Hseps|apply write_string_head|].
      exact Hrem. }
    destruct (keeps_read_value extract pt_u8string r) as [Hc Hs].
    rewrite Hread in Hc, Hs. cbn [R.final] in Hc, Hs.
    destruct (IH str' r1 st #", " tail) as (r2 & Hreads & Hrem2 & Hstr2 & Hs2 & Hc2).
    { rewrite Hs. exact Hst. }
    { repeat constructor. }
    { exact Hstrs. }
    { exact Hrem1. }
    change (map (fun _ => pt_u8string) (str :: str' :: strs))
      with (pt_u8string :: map (fun _ : list ascii => pt_u8string) (str' :: strs)).
    cbn [R.read_values]. unfold R.bind at 1. rewrite Hread.
    unfold R.bind at 1. rewrite Hreads. unfold R.ret.
    exists r2. split; [reflexivity|].
    rewrite Hstr2, Hs2, Hc2. auto.
Qed.

Lemma tuple_of_strings_text (strs : list (list ascii)) :
  W.out (W.write_tuple insert_nothing (map pv_u8string strs) W.init)
  = #" {" ++ join #", " (map W.write_string strs)
    ++ match strs with [] => #"}" | _ :: _ => #" }" end.
Proof.
  change (W.write_tuple insert_nothing (map pv_u8string strs) W.init)
    with (W.end_sequence
            (W.write_values insert_nothing (map pv_u8string strs)
               (W.put #" {" W.init))).
  destruct (bracket_out insert_nothing #" {" (map pv_u8string strs) W.init
              eq_refl eq_refl) as [H _].
  cbv zeta in H. rewrite H, map_map. destruct strs; reflexivity.
Qed.

(** X14: round trip of a tuple of strings.  Let no string end in a
    backslash.  Inside an object with fields, if the text under the cursor
    is, after separators, what [write_tuple] writes for the strings,
    followed by anything, then [read_tuple] with one string tag per element
    returns the strings in order and leaves the cursor behind the closing
    brace, stack and counter untouched.  This holds for the empty tuple
    too. *)
Theorem tuple_of_strings_is_read_back extract (strs : list (list ascii))
    (r : R.t) (st : list bool) (seps rest : list ascii) :
  R.m_obj_had_left_parenthesis r = true :: st ->
  separators seps ->
  Forall (fun x => last x NUL <> backslash) strs ->
  R.remaining r
  = seps
    ++ W.out (W.write_tuple insert_nothing (map pv_u8string strs) W.init)
    ++ rest ->
  exists r',
    R.read_tuple extract (map (fun _ => pt_u8string) strs) r
    = R.Ok (map pv_u8string strs) r'
    /\ R.remaining r' = rest
    /\ R.m_str r' = R.m_str r
    /\ R.m_obj_had_left_parenthesis r' = R.m_obj_had_left_parenthesis r
    /\ R.m_obj_count r' = R.m_obj_count r.
Proof.
  intros Hst Hseps Hok Hrem. rewrite tuple_of_strings_text in Hrem.
  unfold R.read_tuple, R.bind at 1. rewrite (integrity_check_ok r st Hst).
  destruct (consume_ok "{" r (seps ++ #" ")
              (join #", " (map W.write_string strs)
               ++ match strs with [] => #"}" | _ :: _ => #" }" end ++ rest))
    as (r1 & Hcons & Hrem1 & Hstr1 & Hs1 & Hc1).
  { apply Forall_app. split; [exact Hseps|repeat constructor]. }
  { reflexivity. }
  { rewrite Hrem, <- !app_assoc. reflexivity. }
  unfold R.bind at 1. rewrite Hcons.
  destruct strs as [|str strs].
  - cbn [map R.read_values]. unfold R.bind at 1, R.ret at 1.
    destruct (consume_ok "}" r1 [] rest) as (r2 & Hcons2 & Hrem2 & Hstr2 & Hs2 & Hc2).
    { constructor. }
    { reflexivity. }
    { exact Hrem1. }
    unfold R.bind, R.ret. rewrite Hcons2. exists r2.
    rewrite Hstr2, Hs2, Hc2. auto.
  - destruct (read_values_strings extract strs str r1 st [] (#" }" ++ rest))
      as (r2 & Hreads & Hrem2 & Hstr2 & Hs2 & Hc2).
    { rewrite Hs1. exact Hst. }
    { constructor. }
    { exact Hok. }
    { exact Hrem1. }
    unfold R.bind at 1. rewrite Hreads.
    destruct (consume_ok "}" r2 #" " rest) as (r3 & Hcons3 & Hrem3 & Hstr3 & Hs3 & Hc3).
    { repeat constructor. }
    { reflexivity. }
    { exact Hrem2. }
    unfold R.bind, R.ret. rewrite Hcons3. exists r3.
    rewrite Hstr3, Hs3, Hc3, Hstr2, Hs2, Hc2. auto.
Qed.

Lemma tuple_of_strings_is_read_back_witness :
  exists r',
    R.read_tuple extract_nothing [pt_u8string; pt_u8string]
      (in_object
         (#"T ( " ++ W.out (W.write_tuple insert_nothing
                              [pv_u8string #"a}"; pv_u8string #"b, c"] W.init)
          ++ #" )") 3)
    = R.Ok [pv_u8string #"a}"; pv_u8string #"b, c"] r'
    /\ R.remaining r' = #" )".
Proof.
  destruct (tuple_of_strings_is_read_back extract_nothing [ #"a}"; #"b, c"]
              (in_object
                 (#"T ( " ++ W.out (W.write_tuple insert_nothing
                                      [pv_u8string #"a}"; pv_u8string #"b, c"]
                                      W.init)
                  ++ #" )") 3)
              [] #" " #" )")
    as (r' & H1 & H2 & _).
  - reflexivity.
  - repeat constructor.
  - repeat constructor; vm_compute; discriminate.
  - vm_compute. reflexivity.
  - exists r'. split; [exact H1|exact H2].
Defined.

Lemma seek_object_prefix (name tail : list ascii) :
  name <> [] ->
  Forall (fun c => R.is_delimiter c = false) name ->
  tail = [] \/ R.is_delimiter (hd NUL tail) = true ->
  exists r',
    R.seek_object (R.init (name ++ tail)) = R.Ok name r'
    /\ R.remaining r' = tail
    /\ R.m_str r' = name ++ tail
    /\ R.m_obj_count r' = 0%Z
    /\ R.m_obj_had_left_parenthesis r' = [].
Proof.
  intros Hne Hall Htail. rewrite seek_object_spec. cbv zeta.
  assert (Hhd : R.is_space_or_comma (hd NUL (name ++ tail)) = false).
  { destruct name as [|c name]; [contradiction|]. simpl.
    inversion Hall; subst.
    destruct (R.is_space_or_comma c) eqn:E; [|reflexivity].
    apply separator_is_delimiter in E. congruence. }
  assert (Hrem : R.remaining (skipped (R.init (name ++ tail))) = name ++ tail).
  { apply (skip_to_text (R.init (name ++ tail)) []);
      [constructor|exact Hhd|reflexivity]. }
  rewrite Hrem.
  assert (Hfind : find_if R.is_delimiter (name ++ tail) = length name).
  { rewrite find_if_app by exact Hall.
    destruct Htail as [->|H]; [simpl; lia|].
    destruct tail as [|c tail]; [simpl; lia|]. simpl in *. rewrite H. lia. }
  rewrite Hfind.
  replace (Nat.eqb (length name) 0) with false
    by (destruct name; [contradiction|reflexivity]).
  rewrite firstn_app, firstn_all, Nat.sub_diag. simpl firstn. rewrite app_nil_r.
  eexists. split; [reflexivity|].
  split; [|repeat split].
  match goal with
  | |- R.remaining ?x = _ =>
      rewrite (remaining_shift (skipped (R.init (name ++ tail))) x
                 (length name) eq_refl eq_refl)
  end.
  rewrite Hrem. apply skipn_length_app.
Qed.

Lemma begin_object_paren (name : list ascii) (r : R.t) (seps tail : list ascii) :
  separators seps ->
  R.remaining r = seps ++ "("%char :: tail ->
  exists r',
    R.begin_object name r = R.Ok tt r'
    /\ R.remaining r' = tail
    /\ R.m_str r' = R.m_str r
    /\ R.m_obj_had_left_parenthesis r' = true :: R.m_obj_had_left_parenthesis r
    /\ R.m_obj_count r' = R.incr_size (R.m_obj_count r).
Proof.
  intros Hseps Hrem. rewrite begin_object_spec. cbv zeta.
  set (r0 := R.set_obj_count (R.incr_size (R.m_obj_count r)) r).
  destruct (skipped_twice_pos r0) as [_ Hrem2].
  assert (Hrem1 : R.remaining (skipped r0) = "("%char :: tail)
    by (apply (skip_to_text r0 seps); [exact Hseps|reflexivity|exact Hrem]).
  rewrite Hrem1 in Hrem2.
  assert (Hcur : cur (skipped (skipped r0)) = "("%char)
    by (rewrite cur_hd, Hrem2; reflexivity).
  rewrite Hcur. change (Ascii.eqb "(" "(") with true. cbv iota.
  eexists. split; [reflexivity|].
  split; [apply remaining_advance with (1 := Hrem2); reflexivity|].
  repeat split.
Qed.

Lemma remaining_in_bounds (r : R.t) : R.remaining r <> [] -> in_bounds r.
Proof.
  unfold in_bounds. intros H.
  destruct (Nat.le_gt_cases (R.m_pos r) (length (R.m_str r))) as [Hle|Hgt];
    [exact Hle|].
  exfalso. apply H. unfold R.remaining. apply skipn_all2. lia.
Qed.

Lemma end_object_outermost_ok (r : R.t) (st : list bool) (seps tail : list ascii) :
  R.m_obj_had_left_parenthesis r = true :: st ->
  R.m_obj_count r = 1%Z ->
  separators seps -> separators tail ->
  R.remaining r = seps ++ ")"%char :: tail ->
  exists r',
    R.end_object r = R.Ok tt r'
    /\ R.m_pos r' = length (R.m_str r)
    /\ R.m_obj_count r' = 0%Z
    /\ R.m_obj_had_left_parenthesis r' = st.
Proof.
  intros Hst Hc Hseps Htail Hrem.
  assert (Hb : in_bounds r).
  { apply remaining_in_bounds. rewrite Hrem. destruct seps; discriminate. }
  rewrite (end_object_unfold r true st Hst).
  destruct (close_top_ok r true tail Hb) as (ra & -> & Hrema & Hba & Hstr & Hcnt).
  { simpl. exists seps. split; [exact Hseps|exact Hrem]. }
  rewrite Hc in Hcnt.
  destruct (outermost_check ra st Hba Hcnt) as [Hz Hend]. cbv zeta in *.
  rewrite Hz. rewrite Hrema in Hend. apply Hend in Htail. rewrite Htail.
  eexists. split; [reflexivity|].
  apply Nat.eqb_eq in Htail. simpl R.m_str in *. rewrite <- Hstr.
  split; [exact Htail|]. split; [|reflexivity].
  simpl. rewrite Hcnt. reflexivity.
Qed.

(** X15: round trip of an object with string fields.  Let [name] be a
    non-empty type name without delimiters and let no field end in a
    backslash.  The text that [to_string] returns for a descriptor that
    writes [begin_object name], one string per field (at least one) and
    [end_object] is read back by [seek_object], [begin_object], one
    [read_value] per field and [end_object]: the reader returns the name and
    the fields in order, and ends at the end of the input with no object
    open. *)
Theorem object_of_strings_round_trip extract (name str : list ascii)
    (strs : list (list ascii)) :
  name <> [] ->
  Forall (fun c => R.is_delimiter c = false) name ->
  Forall (fun x => last x NUL <> backslash) (str :: strs) ->
  let fields := str :: strs in
  let text :=
    to_string
      (fun w =>
         W.end_object
           (W.write_values insert_nothing (map pv_u8string fields)
              (W.begin_object name w))) in
  exists r',
    R.bind R.seek_object
      (fun n =>
         R.bind (R.begin_object n)
           (fun _ =>
              R.bind (R.read_values extract (map (fun _ => pt_u8string) fields))
                (fun vs => R.bind R.end_object (fun _ => R.ret (n, vs)))))
      (R.init text)
    = R.Ok (name, map pv_u8string fields) r'
    /\ R.m_pos r' = length text
    /\ R.m_obj_had_left_parenthesis r' = []
    /\ R.m_obj_count r' = 0%Z.
Proof.
  intros Hne Hall Hok fields text.
  assert (Htext : text
                  = name ++ #" ( " ++ join #", " (map W.write_string fields)
                    ++ #" )").
  { unfold text, to_string.
    destruct (object_out insert_nothing name (map pv_u8string fields) W.init)
      as [H _].
    cbv zeta in H. rewrite H. unfold fields. rewrite map_map. reflexivity. }
  rewrite Htext.
  destruct (seek_object_prefix name
              (#" ( " ++ join #", " (map W.write_string fields) ++ #" )")
              Hne Hall (or_intror eq_refl))
    as (r0 & Hseek & Hrem0 & Hstr0 & Hc0 & Hs0).
  unfold R.bind at 1. rewrite Hseek.
  destruct (begin_object_paren name r0 #" "
              (#" " ++ join #", " (map W.write_string fields) ++ #" )"))
    as (r1 & Hbegin & Hrem1 & Hstr1 & Hs1 & Hc1).
  { repeat constructor. }
  { exact Hrem0. }
  unfold R.bind at 1. rewrite Hbegin.
  rewrite Hs0 in Hs1. rewrite Hc0 in Hc1.
  destruct (read_values_strings extract strs str r1 [] #" " #" )")
    as (r2 & Hreads & Hrem2 & Hstr2 & Hs2 & Hc2).
  { exact Hs1. }
  { repeat constructor. }
  { exact Hok. }
  { exact Hrem1. }
  unfold R.bind at 1. fold fields in Hreads. rewrite Hreads.
  destruct (end_object_outermost_ok r2 [] #" " []) as (r3 & Hend & Hp3 & Hc3 & Hs3).
  { rewrite Hs2. exact Hs1. }
  { rewrite Hc2, Hc1. reflexivity. }
  { repeat constructor. }
  { constructor. }
  { exact Hrem2. }
  unfold R.bind, R.ret. rewrite Hend. exists r3.
  split; [reflexivity|]. rewrite Hp3, Hstr2, Hstr1, Hstr0. auto.
Qed.

Lemma object_of_strings_round_trip_witness :
  exists r',
    R.bind R.seek_object
      (fun n =>
         R.bind (R.begin_object n)
           (fun _ =>
              R.bind (R.read_values extract_nothing [pt_u8string; pt_u8string])
                (fun vs => R.bind R.end_object (fun _ => R.ret (n, vs)))))
      (R.init
         (to_string
            (fun w =>
               W.end_object
                 (W.write_values insert_nothing
                    [pv_u8string #"x ( y"; pv_u8string #"z"]
                    (W.begin_object #"Pair" w)))))
    = R.Ok (#"Pair", [pv_u8string #"x ( y"; pv_u8string #"z"]) r'
    /\ R.m_obj_count r' = 0%Z.
Proof.
  destruct (object_of_strings_round_trip extract_nothing #"Pair" #"x ( y"
              [ #"z"])
    as (r' & H1 & _ & _ & H2).
  - discriminate.
  - repeat constructor.
  - repeat constructor; vm_compute; discriminate.
  - exists r'. split; [exact H1|exact H2].
Defined.

(** ** The element count of a written sequence *)

Lemma count_app (c : ascii) (a b : list ascii) :
  count c (a ++ b) = count c a + count c b.
Proof. unfold count. rewrite filter_app, length_app. reflexivity. Qed.

Lemma count_join (texts : list (list ascii)) :
  count "," (join #", " texts)
  = length texts - 1 + list_sum (map (count ",") texts).
Proof.
  induction texts as [|t texts IH]; [reflexivity|].
  destruct texts as [|t' texts].
  - simpl. lia.
  - change (join #", " (t :: t' :: texts))
      with (t ++ #", " ++ join #", " (t' :: texts)).
    rewrite !count_app, IH.
    change (count "," #", ") with 1. simpl length. simpl map. simpl list_sum.
    lia.
Qed.

Lemma no_brace_join (texts : list (list ascii)) :
  Forall (fun t => Forall (fun c => c <> "}"%char) t) texts ->
  Forall (fun c => c <> "}"%char) (join #", " texts).
Proof.
  induction texts as [|t texts IH]; intros H; [constructor|].
  inversion H as [|? ? Ht Hts]; subst.
  destruct texts as [|t' texts]; [exact Ht|].
  change (join #", " (t :: t' :: texts))
    with (t ++ #", " ++ join #", " (t' :: texts)).
  apply Forall_app. split; [exact Ht|].
  apply Forall_app. split; [|apply IH; exact Hts].
  repeat constructor; discriminate.
Qed.

Lemma find_closing_brace (a b : list ascii) :
  Forall (fun c => c <> "}"%char) a ->
  find "}" (a ++ "}"%char :: b) = length a
  /\ firstn (find "}" (a ++ "}"%char :: b)) (a ++ "}"%char :: b) = a.
Proof.
  intros H.
  assert (Hf : find "}" (a ++ "}"%char :: b) = length a).
  { unfold find. rewrite find_if_app.
    - simpl. lia.
    - apply Forall_impl with (2 := H). intros c Hc.
      rewrite Ascii.eqb_sym. apply Ascii.eqb_neq. exact Hc. }
  split; [exact Hf|].
  rewrite Hf, firstn_app, firstn_all, Nat.sub_diag. simpl. apply app_nil_r.
Qed.

(** X16: the element count [begin_sequence] infers for a sequence the
    writer has written.  Let no value be written with a closing brace in
    its text.  Inside an object with fields, with the cursor before the
    text of [begin_sequence], one [write_value] per element and
    [end_sequence], the call reads the opening brace and returns 1 for the
    empty sequence, and otherwise the number of elements plus the number of
    commas inside the texts of the elements.  So the count is the number of
    elements exactly for a non-empty sequence whose values are written
    without a comma. *)
Theorem written_sequence_count ostream_insert
    (values : list primitive_variant) (size : Z) (r : R.t) (st : list bool)
    (seps tail : list ascii) :
  R.m_obj_had_left_parenthesis r = true :: st ->
  separators seps ->
  Forall (fun v => Forall (fun c => c <> "}"%char)
                     (W.pt_writer ostream_insert v)) values ->
  R.remaining r
  = seps
    ++ W.out (W.end_sequence
                (W.write_values ostream_insert values
                   (W.begin_sequence size W.init)))
    ++ tail ->
  let commas :=
    list_sum (map (fun v => count "," (W.pt_writer ostream_insert v)) values) in
  exists r',
    R.begin_sequence r
    = R.Ok (match values with
            | [] => 1%Z
            | _ :: _ => Z.of_nat (length values + commas)
            end) r'
    /\ R.m_str r' = R.m_str r
    /\ R.m_obj_had_left_parenthesis r' = R.m_obj_had_left_parenthesis r.
Proof.
  intros Hst Hseps Hno Hrem commas.
  destruct (bracket_out ostream_insert #"{ " values W.init eq_refl eq_refl)
    as [Hout _].
  cbv zeta in Hout.
  change (W.begin_sequence size W.init) with (W.put #"{ " W.init) in Hrem.
  rewrite Hout in Hrem. cbn [W.out W.init app] in Hrem.
  set (texts := map (W.pt_writer ostream_insert) values) in *.
  destruct (consume_ok "{" r seps
              (#" " ++ join #", " texts
               ++ match values with [] => #"}" | _ :: _ => #" }" end ++ tail))
    as (r1 & Hcons & Hrem1 & Hstr1 & Hs1 & _).
  { exact Hseps. }
  { reflexivity. }
  { rewrite Hrem, <- !app_assoc. reflexivity. }
  unfold R.begin_sequence, R.bind at 1. rewrite (integrity_check_ok r st Hst).
  unfold R.bind at 1. rewrite Hcons. unfold R.bind, R.gets, R.ret.
  rewrite Hrem1.
  eexists. split; [|split; [exact Hstr1|exact Hs1]]. f_equal.
  destruct values as [|v vs].
  - reflexivity.
  - assert (Hnb : Forall (fun c => c <> "}"%char) (#" " ++ join #", " texts ++ #" ")).
    { apply Forall_app. split; [repeat constructor; discriminate|].
      apply Forall_app. split; [|repeat constructor; discriminate].
      apply no_brace_join. unfold texts. apply Forall_map. exact Hno. }
    destruct (find_closing_brace (#" " ++ join #", " texts ++ #" ") tail Hnb)
      as [_ Hfirst].
    replace (#" " ++ join #", " texts ++ #" }" ++ tail)
      with ((#" " ++ join #", " texts ++ #" ") ++ "}"%char :: tail)
      by (rewrite <- !app_assoc; reflexivity).
    rewrite Hfirst, !count_app, count_join.
    change (count "," #" ") with 0.
    unfold texts, commas. rewrite length_map, map_map. simpl length. lia.
Qed.

Lemma written_sequence_count_witness :
  exists r',
    R.begin_sequence
      (in_object
         (#"T ( "
          ++ W.out (W.end_sequence
                      (W.write_values insert_nothing
                         [pv_u8string #"a, b"; pv_u8string #"c"]
                         (W.begin_sequence 2 W.init)))
          ++ #" )") 3)
    = R.Ok 3%Z r'.
Proof.
  destruct (written_sequence_count insert_nothing
              [pv_u8string #"a, b"; pv_u8string #"c"] 2
              (in_object
                 (#"T ( "
                  ++ W.out (W.end_sequence
                              (W.write_values insert_nothing
                                 [pv_u8string #"a, b"; pv_u8string #"c"]
                                 (W.begin_sequence 2 W.init)))
                  ++ #" )") 3)
              [] #" " #" )")
    as (r' & H & _).
  - reflexivity.
  - repeat constructor.
  - repeat constructor; discriminate.
  - vm_compute. reflexivity.
  - exists r'. exact H.
Defined.

(** ** The facade *)

Lemma peek_object_text (seps name tail : list ascii) :
  separators seps ->
  name <> [] ->
  Forall (fun c => R.is_delimiter c = false) name ->
  tail = [] \/ R.is_delimiter (hd NUL tail) = true ->
  exists r0,
    R.peek_object (R.init (seps ++ name ++ tail)) = R.Ok name r0
    /\ R.remaining r0 = name ++ tail
    /\ R.m_str r0 = seps ++ name ++ tail
    /\ R.m_obj_count r0 = 0%Z
    /\ R.m_obj_had_left_parenthesis r0 = [].
Proof.
  intros Hseps Hne Hall Htail. rewrite peek_object_spec. cbv zeta.
  set (r1 := skipped (R.init (seps ++ name ++ tail))).
  assert (Hhd : R.is_space_or_comma (hd NUL (name ++ tail)) = false).
  { destruct name as [|c name]; [contradiction|]. simpl.
    inversion Hall; subst.
    destruct (R.is_space_or_comma c) eqn:E; [|reflexivity].
    apply separator_is_delimiter in E. congruence. }
  assert (Hrem : R.remaining r1 = name ++ tail)
    by (apply (skip_to_text _ seps); [exact Hseps|exact Hhd|reflexivity]).
  rewrite Hrem.
  assert (Hfind : find_if R.is_delimiter (name ++ tail) = length name).
  { rewrite find_if_app by exact Hall.
    destruct Htail as [->|H]; [simpl; lia|].
    destruct tail as [|c tail]; [simpl; lia|]. simpl in *. rewrite H. lia. }
  rewrite Hfind.
  replace (Nat.eqb (length name) 0) with false
    by (destruct name; [contradiction|reflexivity]).
  rewrite firstn_app, firstn_all, Nat.sub_diag. simpl firstn. rewrite app_nil_r.
  eexists. split; [reflexivity|]. split; [exact Hrem|]. repeat split.
Qed.

(** X17: [from_string] dispatches on the first type name of the text and
    hands the reader over with that name still unread.  Let the text be
    separators, a name (non-empty, without delimiters) and a tail that is
    empty or starts with a delimiter.  If no descriptor is announced under
    the name, [from_string] throws the logic error "<name> is not
    announced".  If one is, the result is what its [deserialize] makes of a
    reader whose cursor stands on the name, with no object open: the
    descriptor reads the name again itself.  A text that holds no name at
    its start (nothing but separators) is refused with "malformed string:
    could not seek object type name" before any lookup. *)
Theorem from_string_dispatches_on_name (object : Type)
    (by_uniform_name : list ascii -> option (R.M object))
    (seps name tail : list ascii) :
  separators seps ->
  name <> [] ->
  Forall (fun c => R.is_delimiter c = false) name ->
  tail = [] \/ R.is_delimiter (hd NUL tail) = true ->
  (exists r0,
      R.remaining r0 = name ++ tail
      /\ R.m_str r0 = seps ++ name ++ tail
      /\ R.m_obj_count r0 = 0%Z
      /\ R.m_obj_had_left_parenthesis r0 = []
      /\ from_string by_uniform_name (seps ++ name ++ tail)
         = match by_uniform_name name with
           | None => R.Throw (R.logic_error (name ++ #" is not announced")) r0
           | Some deserialize => deserialize r0
           end)
  /\ (exists r0,
         from_string by_uniform_name seps
         = R.Throw
             (R.logic_error
                (#"malformed string: " ++ #"could not seek object type name"))
             r0).
Proof.
  intros Hseps Hne Hall Htail. split.
  - destruct (peek_object_text seps name tail Hseps Hne Hall Htail)
      as (r0 & Hpeek & Hrem & Hstr & Hc & Hs).
    exists r0. repeat (split; [assumption|]).
    unfold from_string, R.bind. rewrite Hpeek.
    destruct (by_uniform_name name); reflexivity.
  - unfold from_string, R.bind. rewrite peek_object_spec. cbv zeta.
    assert (Hrem : R.remaining (skipped (R.init seps)) = []).
    { rewrite remaining_skipped.
      replace (leading_separators (R.remaining (R.init seps)))
        with (length (R.remaining (R.init seps)))
        by (symmetry; apply separators_leading; exact Hseps).
      apply skipn_all. }
    rewrite Hrem. simpl. eexists. reflexivity.
Qed.

Lemma from_string_dispatches_on_name_witness :
  exists r0,
    from_string (fun _ : list ascii => @None (R.M unit)) #" Foo ( 1 )"
    = R.Throw (R.logic_error #"Foo is not announced") r0.
Proof.
  destruct (from_string_dispatches_on_name unit (fun _ => None)
              #" " #"Foo" #" ( 1 )")
    as [(r0 & _ & _ & _ & _ & H) _].
  - repeat constructor.
  - discriminate.
  - repeat constructor.
  - right. reflexivity.
  - exists r0. exact H.
Defined.
